(** * Linea prover: utilities, smart-vectors, compilation suite and setup

    A shallow embedding of the parts of the Go prover that the checked
    properties talk about:

    - [prover/utils/utils.go]: [IsPowerOfTwo], [DivCeil], [NextPowerOfTwo],
      [PositiveMod];
    - [prover/maths/common/smartvectors/smartvectors.go]: the constructors
      [AllocateRegular], [LeftPadded], [RightPadded], ... and [Density];
    - the [zkevm] package file holding [fullCompilationSuite] and the
      memoized [FullZkEvm];
    - [prover/cmd/prover/cmd/setup.go]: [updateSetup].

    Go's [int] is taken to be the 64-bit two's complement integer; it is
    represented by a [Z] together with the explicit wrap-around [wrap].
    A Go panic is the [Panic] outcome of the [result] type. *)

From Stdlib Require Import ZArith Lia Bool.
From stdpp Require Import base tactics option list numbers strings gmap.
From Equations Require Import Equations.

Local Open Scope Z_scope.

(** ** Outcomes of Go calls: a value, or a panic *)

Inductive result (A : Type) : Type :=
| Ok (a : A)
| Panic.
Arguments Ok {A} a.
Arguments Panic {A}.

(** A panic aborts the rest of the computation: [x ← r; k] runs [k] only
    when [r] returned. *)
#[global] Instance result_bind : MBind result :=
  fun A B (k : A -> result B) (r : result A) =>
    match r with
    | Ok a => k a
    | Panic => Panic
    end.

#[global] Instance result_ret : MRet result := fun A a => Ok a.

Definition is_ok {A : Type} (r : result A) : bool :=
  match r with Ok _ => true | Panic => false end.

(** ** 64-bit signed integers *)

Definition min_int : Z := - 2 ^ 63.
Definition max_int : Z := 2 ^ 63 - 1.

(** [is_int z]: [z] is a value of Go's [int]. *)
Definition is_int (z : Z) : Prop := min_int <= z <= max_int.

(** Two's complement wrap-around of an integer operation's exact result. *)
Definition wrap (z : Z) : Z := (z + 2 ^ 63) mod 2 ^ 64 - 2 ^ 63.

(** ** prover/utils/utils.go *)

Module Utils.

(** [func IsPowerOfTwo[T ~int](n T) bool { return n&(n-1) == 0 && n > 0 }] *)
Definition IsPowerOfTwo (n : Z) : bool :=
  (Z.land n (wrap (n - 1)) =? 0) && (n >? 0).

(** [DivCeil]: Go's [/] truncates towards zero and panics on a zero
    divisor. *)
Definition DivCeil (a b : Z) : result Z :=
  if b =? 0 then Panic
  else
    let res := wrap (Z.quot a b) in
    if wrap (b * res) <? a then Ok (wrap (res + 1)) else Ok res.

(** [NextPowerOfTwo]: the bit-smearing computation, with the guard on
    [1<<62]. *)
Definition NextPowerOfTwo (n : Z) : result Z :=
  if n >? Z.shiftl 1 62 then Panic
  else
    let v := n in
    let v := wrap (v - 1) in
    let v := Z.lor v (Z.shiftr v (Z.shiftl 1 0)) in
    let v := Z.lor v (Z.shiftr v (Z.shiftl 1 1)) in
    let v := Z.lor v (Z.shiftr v (Z.shiftl 1 2)) in
    let v := Z.lor v (Z.shiftr v (Z.shiftl 1 3)) in
    let v := Z.lor v (Z.shiftr v (Z.shiftl 1 4)) in
    let v := Z.lor v (Z.shiftr v (Z.shiftl 1 5)) in
    let v := wrap (v + 1) in
    Ok v.

(** [PositiveMod]: Go's [%] has the sign of the dividend and panics on a
    zero divisor. *)
Definition PositiveMod (a n : Z) : result Z :=
  if n =? 0 then Panic
  else
    let res := Z.rem a n in
    if res <? 0 then Ok (wrap (res + n)) else Ok res.

(** [DivExact]: the quotient, or a panic when the division leaves a
    remainder (or the divisor is zero). *)
Definition DivExact (a b : Z) : result Z :=
  if b =? 0 then Panic
  else
    let res := wrap (Z.quot a b) in
    if negb (wrap (res * b) =? a) then Panic else Ok res.

Section Generic.

Context {T U : Type}.

(** What the error of [AllReturnEqual] reports: [args[0]], the argument
    that disagrees, and the two results. *)
Record Mismatch : Type := {
  mismatch_first_arg : T;
  mismatch_arg : T;
  mismatch_first : U;
  mismatch_curr : U
}.

(** The loop of [AllReturnEqual] over [args[1:]]; [reflect.DeepEqual] on
    [U] is a decidable equality. *)
Fixpoint AllReturnEqual_loop `{EqDecision U} (fs : T -> U) (arg0 : T)
    (first : U) (rest : list T) : U * option Mismatch :=
  match rest with
  | [] => (first, None)
  | arg :: rest =>
      let curr := fs arg in
      if negb (bool_decide (first = curr)) then
        (first,
         Some {| mismatch_first_arg := arg0; mismatch_arg := arg;
                 mismatch_first := first; mismatch_curr := curr |})
      else AllReturnEqual_loop fs arg0 first rest
  end.

(** [AllReturnEqual]: panics on an empty list; otherwise the result on
    the first argument, with an error at the first disagreement. *)
Definition AllReturnEqual `{EqDecision U} (fs : T -> U) (args : list T)
    : result (U * option Mismatch) :=
  match args with
  | [] => Panic
  | arg0 :: rest => Ok (AllReturnEqual_loop fs arg0 (fs arg0) rest)
  end.

(** [Join]: [res = append(res, t...)] for each slice in turn. *)
Definition Join (ts : list (list T)) : list T :=
  fold_left (fun res t => res ++ t) ts [].

(** The loop [for len(res) < n { res = append(res, padWith) }]. *)
Equations? RightPad_loop (res : list T) (n : Z) (padWith : T) : list T
  by wf (Z.to_nat (n - Z.of_nat (length res))) lt :=
  RightPad_loop res n padWith with Z_lt_dec (Z.of_nat (length res)) n := {
    | left _ => RightPad_loop (res ++ [padWith]) n padWith;
    | right _ => res }.
Proof. rewrite length_app. cbn. lia. Qed.

(** [RightPad]: [make([]T, 0, n)] panics on a negative capacity; [s] is
    appended to the empty slice, then the padding. *)
Definition RightPad (s : list T) (n : Z) (padWith : T) : result (list T) :=
  if n <? 0 then Panic
  else
    let res := [] ++ s in
    Ok (RightPad_loop res n padWith).

(** The loop [for i := 0; i < n; i++ { res = append(res, s...) }]; the
    increment cannot overflow below [n]. *)
Equations? RepeatSlice_loop (s res : list T) (i n : Z) : list T
  by wf (Z.to_nat (n - i)) lt :=
  RepeatSlice_loop s res i n with Z_lt_dec i n := {
    | left _ => RepeatSlice_loop s (res ++ s) (i + 1) n;
    | right _ => res }.
Proof. lia. Qed.

(** [RepeatSlice]: [make([]T, 0, n*len(s))] panics on a negative
    capacity. *)
Definition RepeatSlice (s : list T) (n : Z) : result (list T) :=
  if wrap (n * Z.of_nat (length s)) <? 0 then Panic
  else Ok (RepeatSlice_loop s [] 0 n).

End Generic.

(** The loop of [Log2Floor]: [for i := a; i > 1; i = i >> 1 { res++ }]. *)
Equations? Log2Floor_loop (i res : Z) : Z by wf (Z.to_nat i) lt :=
  Log2Floor_loop i res with Z_gt_dec i 1 := {
    | left _ => Log2Floor_loop (Z.shiftr i 1) (wrap (res + 1));
    | right _ => res }.
Proof.
  rewrite Z.shiftr_div_pow2 by lia. change (2 ^ 1) with 2.
  assert (i / 2 < i) by (apply Z.div_lt; lia).
  assert (0 <= i / 2) by (apply Z.div_pos; lia). lia.
Qed.

Definition Log2Floor (a : Z) : Z := Log2Floor_loop a 0.

(** [Log2Ceil]: the shift count [floor] is never negative, and a count of
    64 or more shifts the 1 out. *)
Definition Log2Ceil (a : Z) : Z :=
  let floor := Log2Floor a in
  if negb (a =? wrap (Z.shiftl 1 floor)) then wrap (floor + 1) else floor.

(** [GCD]: the loop [for a != b] need not terminate, so it is run with a
    bound on the number of iterations; [None] means the bound was hit. *)
Fixpoint GCD (fuel : nat) (a b : Z) : option Z :=
  match fuel with
  | O => None
  | S fuel =>
      if negb (a =? b) then
        if a >? b then GCD fuel (wrap (a - b)) b
        else GCD fuel a (wrap (b - a))
      else Some a
  end.

End Utils.

(** ** prover/maths/common/smartvectors/smartvectors.go *)

Module Smartvectors.

Section WithField.

(** [field.Element], with [field.Zero()]. *)
Context {F : Type}.
Variable field_Zero : F.

(** The helpers of package [vector] that draw or build plain slices; the
    random ones are left unconstrained. *)
Variable Rng : Type.
Variable vector_Rand : Z -> result (list F).
Variable vector_PseudoRand : Rng -> Z -> result (list F * Rng).
Variable vector_ForTest : list Z -> list F.

(** [len(v)] as a Go [int]. *)
Definition len (v : list F) : Z := Z.of_nat (length v).

(** [s[i]]: indexing a slice panics out of range. *)
Definition index (s : list F) (i : Z) : result F :=
  if i <? 0 then Panic
  else match s !! Z.to_nat i with
       | Some x => Ok x
       | None => Panic
       end.

(** [make([]field.Element, n)]: panics on a negative length, otherwise
    [n] zero elements. *)
Definition make (n : Z) : result (list F) :=
  if n <? 0 then Panic else Ok (replicate (Z.to_nat n) field_Zero).

(** Modelled from the spec: the type [Constant], declared elsewhere in
    the package; a single value repeated [length] times. *)
Record Constant : Type := mkConstant { val : F; length_ : Z }.

(** Modelled from the spec: the type [PaddedCircularWindow], declared
    elsewhere in the package; a dense window placed at [offset] (counted
    circularly) inside a vector of [totLen] entries that are [paddedVal]
    elsewhere. *)
Record PaddedCircularWindow : Type := mkPaddedCircularWindow {
  window : list F;
  paddedVal : F;
  offset : Z;
  totLen : Z
}.

(** Modelled from the spec: the type [Regular], declared elsewhere in
    the package; a fully materialized dense slice ([Density] takes
    the [len] of it). *)
Definition Regular : Type := list F.

(** Modelled from the spec: the type [Rotated], declared elsewhere in
    the package; a cyclic rotation view of a dense slice ([Density]
    takes [len(w.v)] of it). *)
Record Rotated : Type := mkRotated { v : Regular; rot_offset : Z }.

(** Modelled from the spec: the closed set of the four variants behind
    the [SmartVector] interface. *)
Inductive SmartVector : Type :=
| SvConstant (c : Constant)
| SvPaddedCircularWindow (w : PaddedCircularWindow)
| SvRegular (r : Regular)
| SvRotated (r : Rotated).

(** A value of interface type [SmartVector] seen by a type switch: a
    (non-nil) pointer to one of the four types above, or anything else
    (another implementation, or the nil interface). *)
Inductive Dynamic : Type :=
| OfPackage (s : SmartVector)
| Foreign.

(** Modelled from the spec: the method [Len] of each variant, defined
    elsewhere in the package. *)
Definition Len (s : SmartVector) : Z :=
  match s with
  | SvConstant c => length_ c
  | SvPaddedCircularWindow w => totLen w
  | SvRegular r => len r
  | SvRotated r => len (v r)
  end.

(** Modelled from the spec: the method [Get] of each variant, defined
    elsewhere in the package; [Get(i)] is bounds-checked, a window entry
    is read at its circular position, a rotated one at the shifted
    index. *)
Definition Get (s : SmartVector) (i : Z) : result F :=
  if (0 <=? i) && (i <? Len s) then
    match s with
    | SvConstant c => Ok (val c)
    | SvPaddedCircularWindow w =>
        pos ← Utils.PositiveMod (i - offset w) (totLen w);
        if pos <? len (window w) then index (window w) pos
        else Ok (paddedVal w)
    | SvRegular r => index r i
    | SvRotated r =>
        pos ← Utils.PositiveMod (i + rot_offset r) (len (v r));
        index (v r) pos
    end
  else Panic.

(** Overwriting every entry of a buffer with [x]. *)
Definition fill (buf : list F) (x : F) : list F :=
  replicate (length buf) x.

(** Modelled from the spec: the method [IntoRegVecSaveAlloc] of each
    variant, defined elsewhere in the package; it materializes the
    vector to a plain dense slice. *)
Definition IntoRegVecSaveAlloc (s : SmartVector) : result (list F) :=
  match s with
  | SvConstant c =>
      res ← make (length_ c);
      Ok (fill res (val c))
  | SvPaddedCircularWindow w =>
      pad ← make (totLen w - len (window w));
      k ← Utils.PositiveMod (totLen w - offset w) (totLen w);
      Ok (rotate (Z.to_nat k) (window w ++ fill pad (paddedVal w)))
  | SvRegular r => Ok r
  | SvRotated r =>
      k ← Utils.PositiveMod (rot_offset r) (len (v r));
      Ok (rotate (Z.to_nat k) (v r))
  end.

(** Modelled from the spec: the method [WriteInSlice] of each variant,
    defined elsewhere in the package; [WriteInSlice(dst)] fails if
    [len(dst) ≠ Len()] and otherwise overwrites [dst] with the entries. *)
Definition WriteInSlice (s : SmartVector) (dst : list F) : result (list F) :=
  if len dst =? Len s then IntoRegVecSaveAlloc s else Panic.

(** Modelled from the spec: [NewRegular], defined elsewhere in the
    package; a construction of length 0 is rejected as a programming
    error, otherwise the slice itself is wrapped. *)
Definition NewRegular (v : list F) : result SmartVector :=
  if len v <=? 0 then Panic else Ok (SvRegular v).

(** Modelled from the spec: [NewConstant], defined elsewhere in the
    package; the length must be positive. *)
Definition NewConstant (x : F) (n : Z) : result SmartVector :=
  if n <=? 0 then Panic else Ok (SvConstant (mkConstant x n)).

(** Modelled from the spec: [NewPaddedCircularWindow], defined elsewhere
    in the package; the total length must be positive, the window must
    fit in it, and the offset is taken circularly. *)
Definition NewPaddedCircularWindow (window : list F) (paddedVal : F)
    (offset totLen : Z) : result SmartVector :=
  if totLen <=? 0 then Panic
  else if len window >? totLen then Panic
  else
    offset ← Utils.PositiveMod offset totLen;
    Ok (SvPaddedCircularWindow
          (mkPaddedCircularWindow window paddedVal offset totLen)).

(** From here on, the functions of [smartvectors.go] itself. *)

Definition AllocateRegular (n : Z) : result SmartVector :=
  s ← make n; NewRegular s.

Definition Rand (n : Z) : result SmartVector :=
  v ← vector_Rand n; NewRegular v.

Definition PseudoRand (rng : Rng) (n : Z) : result (SmartVector * Rng) :=
  '(v, rng') ← vector_PseudoRand rng n;
  s ← NewRegular v;
  Ok (s, rng').

Definition ForTest (xs : list Z) : result SmartVector :=
  NewRegular (vector_ForTest xs).

Definition IntoRegVec (s : SmartVector) : result (list F) :=
  res ← make (Len s);
  WriteInSlice s res.

Definition LeftPadded (v : list F) (padding : F) (targetLen : Z)
    : result SmartVector :=
  if len v >? targetLen then Panic
  else if len v =? targetLen then NewRegular v
  else if len v =? 0 then NewConstant padding targetLen
  else NewPaddedCircularWindow v padding (wrap (targetLen - len v)) targetLen.

Definition RightPadded (v : list F) (padding : F) (targetLen : Z)
    : result SmartVector :=
  if len v >? targetLen then Panic
  else if len v =? targetLen then NewRegular v
  else if len v =? 0 then NewConstant padding targetLen
  else NewPaddedCircularWindow v padding 0 targetLen.

Definition RightZeroPadded (v : list F) (targetLen : Z) : result SmartVector :=
  RightPadded v field_Zero targetLen.

Definition LeftZeroPadded (v : list F) (targetLen : Z) : result SmartVector :=
  LeftPadded v field_Zero targetLen.

Definition Density (v : Dynamic) : result Z :=
  match v with
  | OfPackage (SvConstant _) => Ok 0
  | OfPackage (SvPaddedCircularWindow w) => Ok (len (window w))
  | OfPackage (SvRegular w) => Ok (len w)
  | OfPackage (SvRotated {| v := w_v |}) => Ok (len w_v)
  | Foreign => Panic
  end.

(** [IntoGnarkAssignment]: a fresh slice of [frontend.Variable] (nil
    interfaces, here [None]), filled entry by entry with [sv.Get(i)]. *)
Fixpoint IntoGnarkAssignment_loop (sv : SmartVector) (res : list (option F))
    (range : list nat) : result (list (option F)) :=
  match range with
  | [] => Ok res
  | i :: range =>
      x ← Get sv (Z.of_nat i);
      IntoGnarkAssignment_loop sv (<[i := Some x]> res) range
  end.

Definition IntoGnarkAssignment (sv : SmartVector)
    : result (list (option F)) :=
  if Len sv <? 0 then Panic
  else
    let res := replicate (Z.to_nat (Len sv)) None in
    IntoGnarkAssignment_loop sv res (seq 0 (length res)).

Definition Window (v : Dynamic) : result (list F) :=
  match v with
  | OfPackage (SvConstant w) => IntoRegVecSaveAlloc (SvConstant w)
  | OfPackage (SvPaddedCircularWindow w) => Ok (window w)
  | OfPackage (SvRegular w) => Ok w
  | OfPackage (SvRotated w) => IntoRegVecSaveAlloc (SvRotated w)
  | Foreign => Panic
  end.

End WithField.

End Smartvectors.

(** ** The [zkevm] package: the production compilation suite and the
    memoized [FullZkEvm] *)

Module Zkevm.

(** [ringsis.Params], as far as the suite fills it in. *)
Record ringsis_Params : Type := {
  LogTwoBound : Z;
  LogTwoDegree : Z
}.

(** The options handed to [vortex.Compile]. *)
Inductive VortexOp : Type :=
| vortex_ForceNumOpenedColumns (nbCol : Z)
| vortex_WithSISParams (params : ringsis_Params)
| vortex_ReplaceSisByMimc.

(** One entry of a [compilationSuite]: which compiler pass, called with
    which arguments. *)
Inductive CompilationStep : Type :=
| mimc_CompileMiMC
| compiler_Arcane (minStickSize targetColSize : Z) (noLog : bool)
| vortex_Compile (blowUpFactor : Z) (options : list VortexOp)
| selfrecursion_SelfRecurse
| cleanup_CleanUp.

Definition compilationSuite : Type := list CompilationStep.

Definition keccakLimit : Z := Z.shiftl 1 13.
Definition merkleProofLimit : Z := Z.shiftl 1 13.

Definition sisInstance : ringsis_Params :=
  {| LogTwoBound := 16; LogTwoDegree := 6 |}.

Definition fullCompilationSuite : compilationSuite :=
  [ mimc_CompileMiMC;
    compiler_Arcane (Z.shiftl 1 10) (Z.shiftl 1 19) false;
    vortex_Compile 2
      [vortex_ForceNumOpenedColumns 256; vortex_WithSISParams sisInstance];
    (* First round of self-recursion *)
    selfrecursion_SelfRecurse;
    cleanup_CleanUp;
    mimc_CompileMiMC;
    compiler_Arcane (Z.shiftl 1 10) (Z.shiftl 1 18) false;
    vortex_Compile 2
      [vortex_ForceNumOpenedColumns 256; vortex_WithSISParams sisInstance];
    (* Second round of self-recursion *)
    selfrecursion_SelfRecurse;
    cleanup_CleanUp;
    mimc_CompileMiMC;
    compiler_Arcane (Z.shiftl 1 10) (Z.shiftl 1 16) false;
    vortex_Compile 8
      [vortex_ForceNumOpenedColumns 64; vortex_WithSISParams sisInstance];
    (* Fourth round of self-recursion *)
    selfrecursion_SelfRecurse;
    cleanup_CleanUp;
    mimc_CompileMiMC;
    compiler_Arcane (Z.shiftl 1 10) (Z.shiftl 1 13) false;
    vortex_Compile 8
      [vortex_ForceNumOpenedColumns 64; vortex_ReplaceSisByMimc] ].

(** The fields of [config.TracesLimits] that [FullZkEvm] reads. *)
Record TracesLimits : Type := {
  Rom : Z;
  BlockTransactions : Z;
  PrecompileEcrecoverEffectiveCalls : Z;
  PrecompileModexpEffectiveCalls : Z;
  PrecompileEcaddEffectiveCalls : Z;
  PrecompileEcmulEffectiveCalls : Z;
  PrecompileEcpairingMillerLoops : Z;
  PrecompileEcpairingEffectiveCalls : Z;
  PrecompileEcpairingG2MembershipCalls : Z;
  PrecompileSha2Blocks : Z
}.

(** The [Settings] literal of [FullZkEvm], one record per nested struct.
    [Traces] holds the pointer it was given. *)
Record arithmetization_Settings : Type := { Traces : option TracesLimits }.

Record accumulator_Settings : Type := {
  MaxNumProofs : Z;
  Name : string;
  MerkleTreeDepth : Z
}.

Record statemanager_Settings : Type := {
  AccSettings : accumulator_Settings;
  MiMCCodeHashSize : Z
}.

Record wizard_VersionMetadata : Type := {
  Title : string;
  Version : string
}.

Record keccak_Settings : Type := { MaxNumKeccakf : Z }.

Record ecdsa_Settings : Type := {
  MaxNbEcRecover : Z;
  MaxNbTx : Z;
  NbInputInstance : Z;
  ecdsa_NbCircuitInstances : Z
}.

Record modexp_Settings : Type := {
  MaxNbInstance256 : Z;
  MaxNbInstance4096 : Z
}.

Record ecarith_Limits : Type := {
  NbInputInstances : Z;
  NbCircuitInstances : Z
}.

Record ecpair_Limits : Type := {
  NbMillerLoopInputInstances : Z;
  NbMillerLoopCircuits : Z;
  NbFinalExpInputInstances : Z;
  NbFinalExpCircuits : Z;
  NbG2MembershipInputInstances : Z;
  NbG2MembershipCircuits : Z
}.

Record sha2_Settings : Type := { MaxNumSha2F : Z }.

Record Settings : Type := {
  Arithmetization : arithmetization_Settings;
  Statemanager : statemanager_Settings;
  CompilationSuite : compilationSuite;
  Metadata : wizard_VersionMetadata;
  Keccak : keccak_Settings;
  Ecdsa : ecdsa_Settings;
  Modexp : modexp_Settings;
  Ecadd : ecarith_Limits;
  Ecmul : ecarith_Limits;
  Ecpair : ecpair_Limits;
  Sha2 : sha2_Settings
}.

(** Reading a field through a pointer panics when the pointer is nil. *)
Definition deref {A B : Type} (p : option A) (field : A -> B) : result B :=
  match p with
  | Some a => Ok (field a)
  | None => Panic
  end.

Section WithNewZkEVM.

(** [ZkEvm] and its builder [NewZkEVM] live in other files of the
    package; the builder may panic. *)
Variable ZkEvm : Type.
Variable NewZkEVM : Settings -> result ZkEvm.

(** The package-level variables, and the [ZkEvm] objects allocated so
    far: a [*ZkEvm] is an index in [allocated]. [compilations] counts the
    runs of the function handed to [onceFullZkEvm.Do]. *)
Record Globals : Type := {
  fullZkEvm : option nat;
  onceFullZkEvm : bool;
  allocated : list ZkEvm;
  compilations : nat
}.

Definition startup : Globals :=
  {| fullZkEvm := None; onceFullZkEvm := false;
     allocated := []; compilations := 0 |}.

(** The settings built inside the once-body, field by field in the order
    of the struct literal. *)
Definition fullSettings (tl : option TracesLimits) : result Settings :=
  rom ← deref tl Rom;
  ecrecover ← deref tl PrecompileEcrecoverEffectiveCalls;
  txs ← deref tl BlockTransactions;
  ecdsaInstances ← Utils.DivCeil (wrap (ecrecover + txs)) 4;
  modexp ← deref tl PrecompileModexpEffectiveCalls;
  ecadd ← deref tl PrecompileEcaddEffectiveCalls;
  ecaddInstances ← Utils.DivCeil ecadd 28;
  ecmul ← deref tl PrecompileEcmulEffectiveCalls;
  ecmulInstances ← Utils.DivCeil ecmul 6;
  millerLoops ← deref tl PrecompileEcpairingMillerLoops;
  pairings ← deref tl PrecompileEcpairingEffectiveCalls;
  g2 ← deref tl PrecompileEcpairingG2MembershipCalls;
  g2Instances ← Utils.DivCeil g2 6;
  sha2 ← deref tl PrecompileSha2Blocks;
  Ok {| Arithmetization := {| Traces := tl |};
        Statemanager :=
          {| AccSettings :=
               {| MaxNumProofs := merkleProofLimit;
                  Name := "SM_ACCUMULATOR"%string;
                  MerkleTreeDepth := 40 |};
             MiMCCodeHashSize := rom |};
        CompilationSuite := fullCompilationSuite;
        Metadata :=
          {| Title := "linea/evm-execution/full"%string;
             Version := "beta-v1"%string |};
        Keccak := {| MaxNumKeccakf := keccakLimit |};
        Ecdsa :=
          {| MaxNbEcRecover := ecrecover;
             MaxNbTx := txs;
             NbInputInstance := 4;
             ecdsa_NbCircuitInstances := ecdsaInstances |};
        Modexp := {| MaxNbInstance256 := modexp; MaxNbInstance4096 := 1 |};
        Ecadd :=
          {| NbInputInstances := ecaddInstances; NbCircuitInstances := 28 |};
        Ecmul :=
          {| NbCircuitInstances := ecmulInstances; NbInputInstances := 6 |};
        Ecpair :=
          {| NbMillerLoopInputInstances := 1;
             NbMillerLoopCircuits := millerLoops;
             NbFinalExpInputInstances := 1;
             NbFinalExpCircuits := pairings;
             NbG2MembershipInputInstances := 6;
             NbG2MembershipCircuits := g2Instances |};
        Sha2 := {| MaxNumSha2F := sha2 |} |}.

(** The function literal passed to [onceFullZkEvm.Do]: build the
    settings, compile, and store the pointer to the new object in
    [fullZkEvm]. *)
Definition compileBody (tl : option TracesLimits) (g : Globals)
    : result unit * Globals :=
  let g := {| fullZkEvm := fullZkEvm g; onceFullZkEvm := onceFullZkEvm g;
              allocated := allocated g;
              compilations := S (compilations g) |} in
  match settings ← fullSettings tl; NewZkEVM settings with
  | Ok z =>
      (Ok (),
       {| fullZkEvm := Some (length (allocated g));
          onceFullZkEvm := onceFullZkEvm g;
          allocated := allocated g ++ [z];
          compilations := compilations g |})
  | Panic => (Panic, g)
  end.

(** [sync.Once.Do(f)]: [f] runs only if no call of [Do] ran it before;
    the once is marked done when [f] returns, also when it panics. *)
Definition once_Do (f : Globals -> result unit * Globals) (g : Globals)
    : result unit * Globals :=
  if onceFullZkEvm g then (Ok (), g)
  else
    let '(r, g') := f g in
    (r, {| fullZkEvm := fullZkEvm g'; onceFullZkEvm := true;
           allocated := allocated g'; compilations := compilations g' |}).

(** [FullZkEvm(tl)]: the returned [*ZkEvm] is the content of the global
    [fullZkEvm] (possibly nil). *)
Definition FullZkEvm (tl : option TracesLimits) (g : Globals)
    : result (option nat) * Globals :=
  let '(r, g') := once_Do (compileBody tl) g in
  match r with
  | Ok _ => (Ok (fullZkEvm g'), g')
  | Panic => (Panic, g')
  end.

(** The globals after a sequence of calls of [FullZkEvm], by any
    callers, whatever each call returned. *)
Fixpoint afterCalls (tls : list (option TracesLimits)) (g : Globals)
    : Globals :=
  match tls with
  | [] => g
  | tl :: rest => afterCalls rest (snd (FullZkEvm tl g))
  end.

End WithNewZkEVM.

Arguments fullZkEvm {ZkEvm} g.
Arguments onceFullZkEvm {ZkEvm} g.
Arguments allocated {ZkEvm} g.
Arguments compilations {ZkEvm} g.
Arguments startup {ZkEvm}.
Arguments FullZkEvm {ZkEvm} NewZkEVM tl g.
Arguments afterCalls {ZkEvm} NewZkEVM tls g.

End Zkevm.

(** ** prover/cmd/prover/cmd/setup.go: [updateSetup] *)

Module Setup.

(** A Go [error] value returned by [updateSetup]: the error of a
    collaborator, wrapped by [fmt.Errorf] with the circuit's name, or the
    error of [setup.WriteTo] as it is. *)
Inductive error : Type :=
| External (msg : string)
| FailedToCompile (circuit : string) (cause : error)
| FailedToDigest (circuit : string) (cause : error)
| FailedToSetup (circuit : string) (cause : error).

(** A Go result pair [(value, err)]. *)
Inductive outcome (A : Type) : Type :=
| Returned (a : A)
| Failed (err : error).
Arguments Returned {A} a.
Arguments Failed {A} err.

(** [manifest.Checksums.Circuit] *)
Record Checksums : Type := { Circuit : string }.
Record SetupManifest : Type := { checksums : Checksums }.

Section WithCircuits.

(** The constraint system, the setup assets and the values stored in
    [extraFlags] are opaque here. *)
Variable Ccs : Type.
Variable Assets : Type.
Variable Any : Type.

(** What [updateSetup] calls: the builder, the configuration, the
    package [circuits] and the file system behind it. *)
Record Collaborators : Type := {
  builder_Compile : outcome Ccs;
  cfg_PathForSetup : string -> string;
  filepath_Join : string -> string -> string;
  config_ManifestFileName : string;
  circuits_ReadSetupManifest : string -> outcome SetupManifest;
  circuits_CircuitDigest : Ccs -> outcome string;
  circuits_MakeSetup : string -> Ccs -> gmap string Any -> outcome Assets;
  setup_WriteTo : Assets -> string -> option error
}.

(** The calls that [updateSetup] makes, in order. *)
Inductive Event : Type :=
| Compiled
| ReadManifest (path : string)
| Digested
| RanMakeSetup (circuit : string) (extraFlags : gmap string Any)
| WroteAssets (path : string).

(** [updateSetup], with the package variable [fForce] as an argument;
    a nil [extraFlags] is [None]. The result is the returned error (nil
    is [None]) and the calls made. *)
Definition updateSetup (fForce : bool) (env : Collaborators)
    (circuit : string) (extraFlags : option (gmap string Any))
    : option error * list Event :=
  let extraFlags := match extraFlags with
                    | None => ∅
                    | Some flags => flags
                    end in
  match builder_Compile env with
  | Failed err => (Some (FailedToCompile circuit err), [Compiled])
  | Returned ccs =>
      let setupPath := cfg_PathForSetup env circuit in
      let manifestPath :=
        filepath_Join env setupPath (config_ManifestFileName env) in
      let runSetup (done : list Event) : option error * list Event :=
        match circuits_MakeSetup env circuit ccs extraFlags with
        | Failed err =>
            (Some (FailedToSetup circuit err),
             done ++ [RanMakeSetup circuit extraFlags])
        | Returned setup =>
            (setup_WriteTo env setup setupPath,
             done ++ [RanMakeSetup circuit extraFlags; WroteAssets setupPath])
        end in
      if negb fForce then
        match circuits_ReadSetupManifest env manifestPath with
        | Returned manifest =>
            match circuits_CircuitDigest env ccs with
            | Failed err =>
                (Some (FailedToDigest circuit err),
                 [Compiled; ReadManifest manifestPath; Digested])
            | Returned circuitDigest =>
                if String.eqb (Circuit (checksums manifest)) circuitDigest
                then (None, [Compiled; ReadManifest manifestPath; Digested])
                else runSetup [Compiled; ReadManifest manifestPath; Digested]
            end
        | Failed _ => runSetup [Compiled; ReadManifest manifestPath]
        end
      else runSetup [Compiled]
  end.

End WithCircuits.

Arguments builder_Compile {Ccs Assets Any} c.
Arguments cfg_PathForSetup {Ccs Assets Any} c circuit.
Arguments filepath_Join {Ccs Assets Any} c dir file.
Arguments config_ManifestFileName {Ccs Assets Any} c.
Arguments circuits_ReadSetupManifest {Ccs Assets Any} c path.
Arguments circuits_CircuitDigest {Ccs Assets Any} c ccs.
Arguments circuits_MakeSetup {Ccs Assets Any} c circuit ccs extraFlags.
Arguments setup_WriteTo {Ccs Assets Any} c setup path.
Arguments Compiled {Any}.
Arguments ReadManifest {Any} path.
Arguments Digested {Any}.
Arguments RanMakeSetup {Any} circuit extraFlags.
Arguments WroteAssets {Any} path.
Arguments updateSetup {Ccs Assets Any} fForce env circuit extraFlags.

End Setup.

(** ** The [bridge] package: scanning logs for [RollingHashUpdated] *)

Module Bridge.

(** [common.Address] and [common.Hash] are byte arrays (of 20 and 32
    bytes). *)
Definition Address : Type := list Byte.byte.
Definition Hash : Type := list Byte.byte.

#[global] Instance byte_eq_dec : EqDecision Byte.byte := Byte.byte_eq_dec.
#[global] Instance Address_eq_dec : EqDecision Address := _.
#[global] Instance Hash_eq_dec : EqDecision Hash := _.

(** The fields of [types.Log] that the scan reads. *)
Record Log : Type := {
  log_Address : Address;
  Topics : list Hash
}.

Record RollingHashUpdated : Type := {
  MessageNumber : Z;
  RollingHash : string
}.

(** [new(big.Int).SetBytes(b).Int64()]: the bytes read as a big-endian
    unsigned number, then its low 64 bits as an [int64]. *)
Definition bigEndian (b : list Byte.byte) : Z :=
  fold_left (fun acc x => acc * 256 + Z.of_N (Byte.to_N x)) b 0.

Definition bytesToInt64 (b : list Byte.byte) : Z := wrap (bigEndian b).

Section WithTopic.

(** The Keccak digest of the event signature, and the hex encoder of
    package [utils]. *)
Variable rollingHashUpdateTopic0 : Hash.
Variable utils_HexEncodeToString : list Byte.byte -> string.

(** [topics[i]]: indexing panics out of range. *)
Definition topic (topics : list Hash) (i : nat) : result Hash :=
  match topics !! i with
  | Some h => Ok h
  | None => Panic
  end.

Definition IsRollingHashUpdated (log : Log) (l2BridgeAddress : Address)
    : bool :=
  if (Z.of_nat (length (Topics log)) =? 0)
     || negb (bool_decide (Topics log !! 0%nat = Some rollingHashUpdateTopic0))
  then false
  else if negb (bool_decide (log_Address log = l2BridgeAddress)) then false
  else true.

(** The loop of [ExtractRollingHashUpdated] over the logs. *)
Fixpoint ExtractRollingHashUpdated_loop (res : list RollingHashUpdated)
    (logs : list Log) (l2BridgeAddress : Address)
    : result (list RollingHashUpdated) :=
  match logs with
  | [] => Ok res
  | log :: logs =>
      if negb (IsRollingHashUpdated log l2BridgeAddress) then
        ExtractRollingHashUpdated_loop res logs l2BridgeAddress
      else
        number ← topic (Topics log) 1;
        hash ← topic (Topics log) 2;
        ExtractRollingHashUpdated_loop
          (res ++ [{| MessageNumber := bytesToInt64 number;
                      RollingHash := utils_HexEncodeToString hash |}])
          logs l2BridgeAddress
  end.

Definition ExtractRollingHashUpdated (logs : list Log)
    (l2BridgeAddress : Address) : result (list RollingHashUpdated) :=
  ExtractRollingHashUpdated_loop [] logs l2BridgeAddress.

End WithTopic.

End Bridge.

(** * Vocabulary of the statements *)

Import Smartvectors Zkevm Setup.

(** ** Vocabulary: powers of two and bit smearing *)

(** [is_pow2 n]: [n] is an exact power of two. *)
Definition is_pow2 (n : Z) : Prop := exists k, 0 <= k /\ n = 2 ^ k.

(** The smallest power of two that is at least [n]. *)
Definition least_pow2_above (n p : Z) : Prop :=
  is_pow2 p /\ n <= p /\ forall q, is_pow2 q -> n <= q -> p <= q.

(** [covers v a w]: bit [i] of [w] is set exactly when one of the [a] bits
    [i], ..., [i + a - 1] of [v] is set. *)
Definition covers (v a w : Z) : Prop :=
  forall i, 0 <= i ->
    Z.testbit w i = true <->
    exists j, 0 <= j < a /\ Z.testbit v (i + j) = true.

(** The six [v |= v >> s] statements, after [v--] and before [v++]. *)
Definition smear (v : Z) : Z :=
  let v := Z.lor v (Z.shiftr v 1) in
  let v := Z.lor v (Z.shiftr v 2) in
  let v := Z.lor v (Z.shiftr v 4) in
  let v := Z.lor v (Z.shiftr v 8) in
  let v := Z.lor v (Z.shiftr v 16) in
  let v := Z.lor v (Z.shiftr v 32) in
  v.

(** ** Vocabulary: smart-vectors *)

(** The constructors of the package, as ways to obtain a smart-vector. *)
Section Produced.

Context {F : Type}.
Variable field_Zero : F.
Variable Rng : Type.
Variable vector_Rand : Z -> result (list F).
Variable vector_PseudoRand : Rng -> Z -> result (list F * Rng).
Variable vector_ForTest : list Z -> list F.

Inductive produced : @SmartVector F -> Prop :=
| by_AllocateRegular n s :
    AllocateRegular field_Zero n = Ok s -> produced s
| by_NewRegular v s :
    NewRegular v = Ok s -> produced s
| by_Rand n s :
    Rand vector_Rand n = Ok s -> produced s
| by_PseudoRand rng n s rng' :
    PseudoRand Rng vector_PseudoRand rng n = Ok (s, rng') -> produced s
| by_ForTest xs s :
    ForTest vector_ForTest xs = Ok s -> produced s
| by_LeftPadded v padding targetLen s :
    LeftPadded v padding targetLen = Ok s -> produced s
| by_RightPadded v padding targetLen s :
    RightPadded v padding targetLen = Ok s -> produced s
| by_LeftZeroPadded v targetLen s :
    LeftZeroPadded field_Zero v targetLen = Ok s -> produced s
| by_RightZeroPadded v targetLen s :
    RightZeroPadded field_Zero v targetLen = Ok s -> produced s.

(** Requests for a vector of length 0 are refused. *)
Definition rejects_zero_length : Prop :=
  AllocateRegular field_Zero 0 = Panic /\
  (forall v : list F, len v = 0 -> NewRegular v = Panic) /\
  (forall x : F, NewConstant x 0 = Panic) /\
  (forall (w : list F) x o, NewPaddedCircularWindow w x o 0 = Panic) /\
  (forall (v : list F) padding, LeftPadded v padding 0 = Panic) /\
  (forall (v : list F) padding, RightPadded v padding 0 = Panic) /\
  (forall v, LeftZeroPadded field_Zero v 0 = Panic) /\
  (forall v, RightZeroPadded field_Zero v 0 = Panic).

End Produced.

Section WellFormed.

Context {F : Type}.
Implicit Types (s : @SmartVector F).

(** The vectors that the constructors can build: a positive length that
    is a Go [int], and a window that fits in the total length. *)
Definition well_formed s : Prop :=
  0 < Len s <= max_int /\
  match s with
  | SvPaddedCircularWindow w => len (window w) <= totLen w
  | _ => True
  end.

End WellFormed.

(** ** Vocabulary: the shape of a compilation suite *)

(** The parameters of one round: the Arcane target size, the first
    argument of [vortex.Compile], the number of opened columns and the
    commitment option. *)
Record RoundParams : Type := {
  maxBound : Z;
  foldingParam : Z;
  openedColumnCount : Z;
  commitment : VortexOp
}.

(** MiMC compilation, Arcane, Vortex: the three passes every round has. *)
Definition roundCore (r : RoundParams) : compilationSuite :=
  [ mimc_CompileMiMC;
    compiler_Arcane (Z.shiftl 1 10) (maxBound r) false;
    vortex_Compile (foldingParam r)
      [vortex_ForceNumOpenedColumns (openedColumnCount r); commitment r] ].

(** A round as the five-pass sequence MiMC / Arcane / Vortex /
    SelfRecursion / Cleanup. *)
Definition fivePassRound (r : RoundParams) : compilationSuite :=
  roundCore r ++ [selfrecursion_SelfRecurse; cleanup_CleanUp].

(** Rounds chained by a SelfRecursion and a Cleanup between two
    consecutive ones. *)
Fixpoint chainedRounds (rs : list RoundParams) : compilationSuite :=
  match rs with
  | [] => []
  | [r] => roundCore r
  | r :: rest =>
      roundCore r ++ [selfrecursion_SelfRecurse; cleanup_CleanUp]
                  ++ chainedRounds rest
  end.

(** The arguments found in a suite, in order of appearance. *)
Definition arcaneMaxBounds (suite : compilationSuite) : list Z :=
  flat_map (fun st => match st with
                      | compiler_Arcane _ m _ => [m]
                      | _ => []
                      end) suite.

Definition vortexFoldings (suite : compilationSuite) : list Z :=
  flat_map (fun st => match st with
                      | vortex_Compile b _ => [b]
                      | _ => []
                      end) suite.

Definition vortexOpened (suite : compilationSuite) : list Z :=
  flat_map (fun st => match st with
                      | vortex_Compile _ ops =>
                          flat_map (fun o => match o with
                                             | vortex_ForceNumOpenedColumns n => [n]
                                             | _ => []
                                             end) ops
                      | _ => []
                      end) suite.

(** Whether a Vortex stage swaps the SIS hash for MiMC. *)
Definition replacesSis (ops : list VortexOp) : bool :=
  existsb (fun o => match o with
                    | vortex_ReplaceSisByMimc => true
                    | _ => false
                    end) ops.

Definition vortexReplacesSis (suite : compilationSuite) : list bool :=
  flat_map (fun st => match st with
                      | vortex_Compile _ ops => [replacesSis ops]
                      | _ => []
                      end) suite.

Definition countStep (p : CompilationStep -> bool) (suite : compilationSuite)
    : nat :=
  length (filter (fun st => p st = true) suite).

Definition isSelfRecurse (st : CompilationStep) : bool :=
  match st with selfrecursion_SelfRecurse => true | _ => false end.

Definition isVortex (st : CompilationStep) : bool :=
  match st with vortex_Compile _ _ => true | _ => false end.

(** Every element relates to its successor by [R]. *)
Fixpoint chain (R : Z -> Z -> Prop) (l : list Z) : Prop :=
  match l with
  | a :: (b :: _) as rest => R a b /\ chain R rest
  | _ => True
  end.

Definition sampleLimits (n : Z) : TracesLimits :=
  {| Rom := n; BlockTransactions := n;
     PrecompileEcrecoverEffectiveCalls := n;
     PrecompileModexpEffectiveCalls := n;
     PrecompileEcaddEffectiveCalls := n;
     PrecompileEcmulEffectiveCalls := n;
     PrecompileEcpairingMillerLoops := n;
     PrecompileEcpairingEffectiveCalls := n;
     PrecompileEcpairingG2MembershipCalls := n;
     PrecompileSha2Blocks := n |}.

(** ** Vocabulary: what a run of [updateSetup] did *)

Section SetupFacts.

Context {Ccs Assets Any : Type}.
Implicit Types (env : Collaborators Ccs Assets Any) (tr : list (Event Any)).

Definition ranSetup tr : bool :=
  existsb (fun e => match e with RanMakeSetup _ _ => true | _ => false end) tr.

Definition wroteAssets tr : bool :=
  existsb (fun e => match e with WroteAssets _ => true | _ => false end) tr.

Definition manifestPathOf env (circuit : string) : string :=
  filepath_Join env (cfg_PathForSetup env circuit)
    (config_ManifestFileName env).

(** The manifest is readable and records the digest of [ccs]. *)
Definition manifestMatches env (circuit : string) (ccs : Ccs) : bool :=
  match circuits_ReadSetupManifest env (manifestPathOf env circuit) with
  | Returned manifest =>
      match circuits_CircuitDigest env ccs with
      | Returned d => String.eqb (Circuit (checksums manifest)) d
      | Failed _ => false
      end
  | Failed _ => false
  end.

(** The manifest is readable but the digest of [ccs] cannot be
    computed. *)
Definition digestFails env (circuit : string) (ccs : Ccs) : bool :=
  match circuits_ReadSetupManifest env (manifestPathOf env circuit) with
  | Returned _ =>
      match circuits_CircuitDigest env ccs with
      | Returned _ => false
      | Failed _ => true
      end
  | Failed _ => false
  end.

Definition flagsOf (extraFlags : option (gmap string Any)) : gmap string Any :=
  match extraFlags with None => ∅ | Some flags => flags end.

End SetupFacts.

(** ** Vocabulary: further observations on [updateSetup] and the bridge *)

(** The manifest was consulted (read, or compared through a digest). *)
Definition consultedManifest {Any : Type} (tr : list (Event Any)) : bool :=
  existsb (fun e => match e with
                    | ReadManifest _ | Digested => true
                    | _ => false
                    end) tr.

(** The entry that [ExtractRollingHashUpdated] appends for a log with at
    least three topics. *)
Definition entryOf (utils_HexEncodeToString : list Byte.byte -> string)
    (log : Bridge.Log) : Bridge.RollingHashUpdated :=
  {| Bridge.MessageNumber :=
       Bridge.bytesToInt64 (default [] (Bridge.Topics log !! 1%nat));
     Bridge.RollingHash :=
       utils_HexEncodeToString (default [] (Bridge.Topics log !! 2%nat)) |}.

(** * Properties *)

(** ** Wrap-around *)

Lemma wrap_small z : is_int z -> wrap z = z.
Proof.
  unfold is_int, min_int, max_int, wrap. intros Hz.
  rewrite Z.mod_small; lia.
Qed.

Lemma wrap_is_int z : is_int (wrap z).
Proof.
  unfold is_int, min_int, max_int, wrap.
  pose proof (Z.mod_pos_bound (z + 2 ^ 63) (2 ^ 64) ltac:(lia)). lia.
Qed.

(** ** Bit-level facts used for the two power-of-two functions *)

Section Bits.

Lemma land_double_odd a b : Z.land (2 * a) (2 * b + 1) = 2 * Z.land a b.
Proof.
  apply Z.bits_inj'. intros i Hi.
  rewrite Z.land_spec.
  destruct (Z.eq_dec i 0) as [->|Hne].
  - rewrite Z.testbit_even_0. rewrite Z.testbit_even_0. reflexivity.
  - replace i with (Z.succ (i - 1)) by lia.
    rewrite !Z.testbit_even_succ, Z.testbit_odd_succ by lia.
    now rewrite Z.land_spec.
Qed.

Lemma land_odd_double a : Z.land (2 * a + 1) (2 * a) = 2 * a.
Proof.
  apply Z.bits_inj'. intros i Hi.
  rewrite Z.land_spec.
  destruct (Z.eq_dec i 0) as [->|Hne].
  - now rewrite Z.testbit_even_0, andb_false_r.
  - replace i with (Z.succ (i - 1)) by lia.
    rewrite Z.testbit_even_succ, Z.testbit_odd_succ by lia.
    apply andb_diag.
Qed.

Lemma pow2_double n : is_pow2 n -> is_pow2 (2 * n).
Proof.
  intros (k & Hk & ->). exists (k + 1). split; [lia|].
  rewrite Z.pow_add_r by lia. lia.
Qed.

Lemma pow2_halve n : 0 < n -> is_pow2 (2 * n) -> is_pow2 n.
Proof.
  intros Hn (k & Hk & E).
  destruct (Z.eq_dec k 0) as [->|Hne]; [simpl in E; lia|].
  exists (k - 1). split; [lia|].
  replace k with (1 + (k - 1)) in E by lia.
  rewrite Z.pow_add_r in E by lia. lia.
Qed.

Lemma pow2_odd n : 0 <= n -> is_pow2 (2 * n + 1) -> n = 0.
Proof.
  intros Hn (k & Hk & E).
  destruct (Z.eq_dec k 0) as [->|Hne]; [simpl in E; lia|].
  replace k with (1 + (k - 1)) in E by lia.
  rewrite Z.pow_add_r in E by lia. lia.
Qed.

(** The classical test: a positive number shares no bit with its
    predecessor exactly when it is a power of two. *)
Lemma land_pred_pow2 (p : positive) :
  Z.land (Z.pos p) (Z.pos p - 1) = 0 <-> is_pow2 (Z.pos p).
Proof.
  induction p as [p IH|p IH|].
  - rewrite Pos2Z.inj_xI.
    replace (2 * Z.pos p + 1 - 1) with (2 * Z.pos p) by lia.
    rewrite land_odd_double. split; [lia|].
    intros H. apply pow2_odd in H; lia.
  - rewrite Pos2Z.inj_xO.
    replace (2 * Z.pos p - 1) with (2 * (Z.pos p - 1) + 1) by lia.
    rewrite land_double_odd. split.
    + intros H. apply pow2_double, IH. lia.
    + intros H. apply pow2_halve in H; [|lia]. apply IH in H. lia.
  - split; [|reflexivity]. intros _. exists 0. split; [lia|reflexivity].
Qed.

End Bits.

(** C8. For every 64-bit [int] n, [IsPowerOfTwo n] is true exactly when
    n > 0 and n = 2^k for some k >= 0; it is false on 0 and on every
    negative input. *)
Theorem IsPowerOfTwo_spec (n : Z) :
  is_int n ->
  (Utils.IsPowerOfTwo n = true <-> 0 < n /\ is_pow2 n) /\
  (n <= 0 -> Utils.IsPowerOfTwo n = false).
Proof.
  intros Hn. unfold Utils.IsPowerOfTwo. split.
  - rewrite andb_true_iff, Z.eqb_eq, Z.gtb_gt.
    destruct n as [|p|p].
    + split; intros [H1 H2]; lia.
    + rewrite wrap_small
        by (unfold is_int, min_int, max_int in *; lia).
      rewrite land_pred_pow2. split; intros [? ?]; split; auto; lia.
    + split; intros [H1 H2]; lia.
  - intros Hle. apply andb_false_iff. right.
    destruct (n >? 0) eqn:E; [apply Z.gtb_gt in E; lia | reflexivity].
Qed.

Lemma IsPowerOfTwo_spec_witness :
  (Utils.IsPowerOfTwo 8 = true <-> 0 < 8 /\ is_pow2 8) /\
  (8 <= 0 -> Utils.IsPowerOfTwo 8 = false).
Proof.
  apply (IsPowerOfTwo_spec 8).
  unfold is_int, min_int, max_int. lia.
Defined.

(** ** The bit-smearing of [NextPowerOfTwo] *)

Section Smear.

Lemma covers_init v : covers v 1 v.
Proof.
  intros i Hi. split.
  - intros H. exists 0. split; [lia|]. now rewrite Z.add_0_r.
  - intros (j & Hj & H). now replace (i + j) with i in H by lia.
Qed.

Lemma covers_step v a w :
  0 < a -> covers v a w -> covers v (2 * a) (Z.lor w (Z.shiftr w a)).
Proof.
  intros Ha Hc i Hi.
  rewrite Z.lor_spec, Z.shiftr_spec, orb_true_iff by lia.
  rewrite (Hc i Hi), (Hc (i + a)) by lia. split.
  - intros [(j & Hj & H)|(j & Hj & H)].
    + exists j. split; [lia|exact H].
    + exists (a + j). split; [lia|]. now rewrite Z.add_assoc.
  - intros (j & Hj & H). destruct (Z.lt_ge_cases j a) as [Hlt|Hge].
    + left. exists j. split; [lia|exact H].
    + right. exists (j - a). split; [lia|].
      now replace (i + a + (j - a)) with (i + j) by lia.
Qed.

Lemma covers_smear v : covers v 64 (smear v).
Proof.
  unfold smear.
  pose proof (covers_init v) as H0.
  apply (covers_step v 1) in H0; [|lia].
  apply (covers_step v 2) in H0; [|lia].
  apply (covers_step v 4) in H0; [|lia].
  apply (covers_step v 8) in H0; [|lia].
  apply (covers_step v 16) in H0; [|lia].
  apply (covers_step v 32) in H0; [|lia].
  exact H0.
Qed.

Lemma smear_0 : smear 0 = 0.
Proof. reflexivity. Qed.

(** Smearing a positive 64-bit value sets every bit up to its highest
    one. *)
Lemma smear_ones v :
  0 < v -> Z.log2 v < 64 -> smear v = Z.ones (Z.log2 v + 1).
Proof.
  intros Hv Hlog. pose proof (Z.log2_nonneg v) as Hnn.
  apply Z.bits_inj'. intros i Hi.
  destruct (Z.le_gt_cases i (Z.log2 v)) as [Hle|Hgt].
  - rewrite Z.ones_spec_low by lia.
    apply (covers_smear v i Hi). exists (Z.log2 v - i). split; [lia|].
    replace (i + (Z.log2 v - i)) with (Z.log2 v) by lia.
    apply Z.bit_log2, Hv.
  - rewrite Z.ones_spec_high by lia.
    destruct (Z.testbit (smear v) i) eqn:E; [|reflexivity].
    apply (covers_smear v i Hi) in E. destruct E as (j & Hj & E).
    rewrite Z.bits_above_log2 in E by lia. discriminate.
Qed.

Lemma pow2_le_mono a b : 0 <= a -> 2 ^ a < 2 ^ b -> 2 ^ (a + 1) <= 2 ^ b.
Proof.
  intros Ha H.
  destruct (Z.lt_ge_cases b 0) as [Hb|Hb].
  - rewrite (Z.pow_neg_r 2 b) in H by lia.
    pose proof (Z.pow_pos_nonneg 2 a ltac:(lia) Ha). lia.
  - apply Z.pow_lt_mono_r_iff in H; [|lia|lia].
    apply Z.pow_le_mono_r; lia.
Qed.

End Smear.

Lemma NextPowerOfTwo_unfold n :
  n <= 2 ^ 62 ->
  Utils.NextPowerOfTwo n = Ok (wrap (smear (wrap (n - 1)) + 1)).
Proof.
  intros Hn. unfold Utils.NextPowerOfTwo.
  replace (n >? Z.shiftl 1 62) with false; [reflexivity|].
  symmetry. change (Z.shiftl 1 62) with (2 ^ 62).
  destruct (n >? 2 ^ 62) eqn:E; [apply Z.gtb_gt in E; lia|reflexivity].
Qed.

Lemma NextPowerOfTwo_pos n :
  0 < n <= 2 ^ 62 ->
  exists k, 0 <= k <= 62 /\ Utils.NextPowerOfTwo n = Ok (2 ^ k) /\
            n <= 2 ^ k /\ (0 < k -> 2 ^ (k - 1) < n).
Proof.
  intros Hn. rewrite NextPowerOfTwo_unfold by lia.
  rewrite (wrap_small (n - 1))
    by (unfold is_int, min_int, max_int; lia).
  destruct (Z.eq_dec n 1) as [->|Hne].
  - exists 0. repeat split; try lia.
  - assert (Hv : 0 < n - 1) by lia.
    destruct (Z.log2_spec (n - 1) Hv) as [Hlo Hhi].
    pose proof (Z.log2_nonneg (n - 1)) as Hnn.
    assert (Hlog : Z.log2 (n - 1) < 62).
    { apply Z.log2_lt_pow2; lia. }
    exists (Z.log2 (n - 1) + 1).
    rewrite smear_ones by lia.
    rewrite Z.ones_equiv.
    replace (Z.succ (Z.log2 (n - 1))) with (Z.log2 (n - 1) + 1) in Hhi by lia.
    assert (Hp : 2 ^ (Z.log2 (n - 1) + 1) <= 2 ^ 62)
      by (apply Z.pow_le_mono_r; lia).
    split; [lia|]. split.
    + f_equal. rewrite wrap_small; [lia|].
      unfold is_int, min_int, max_int. lia.
    + split; [lia|]. intros _.
      replace (Z.log2 (n - 1) + 1 - 1) with (Z.log2 (n - 1)) by lia. lia.
Qed.

(** C9. On 0 <= n <= 2^62 [NextPowerOfTwo] returns the least power of two
    that is at least n (n itself when n is a power of two), with 0 for
    the input 0; on every n > 2^62 it panics. *)
Theorem NextPowerOfTwo_spec (n : Z) :
  is_int n ->
  (n = 0 -> Utils.NextPowerOfTwo n = Ok 0) /\
  (0 < n <= 2 ^ 62 ->
     exists p, Utils.NextPowerOfTwo n = Ok p /\ least_pow2_above n p /\
               (is_pow2 n -> p = n)) /\
  (2 ^ 62 < n -> Utils.NextPowerOfTwo n = Panic).
Proof.
  intros Hint. split; [|split].
  - intros ->. reflexivity.
  - intros Hn. destruct (NextPowerOfTwo_pos n Hn) as (k & Hk & E & Hle & Hlt).
    exists (2 ^ k). split; [exact E|].
    assert (Hmin : forall q, is_pow2 q -> n <= q -> 2 ^ k <= q).
    { intros q (j & Hj & ->) Hq.
      destruct (Z.eq_dec k 0) as [->|Hk0].
      - change (2 ^ 0) with 1. lia.
      - replace k with (k - 1 + 1) by lia.
        apply pow2_le_mono; lia. }
    split.
    + split; [exists k; split; [lia|reflexivity]|]. split; [exact Hle|exact Hmin].
    + intros Hp. specialize (Hmin n Hp ltac:(lia)). lia.
  - intros Hn. unfold Utils.NextPowerOfTwo.
    change (Z.shiftl 1 62) with (2 ^ 62).
    destruct (n >? 2 ^ 62) eqn:E; [reflexivity|].
    rewrite Z.gtb_ltb in E. apply Z.ltb_ge in E. lia.
Qed.

Lemma NextPowerOfTwo_spec_witness :
  (5 = 0 -> Utils.NextPowerOfTwo 5 = Ok 0) /\
  (0 < 5 <= 2 ^ 62 ->
     exists p, Utils.NextPowerOfTwo 5 = Ok p /\ least_pow2_above 5 p /\
               (is_pow2 5 -> p = 5)) /\
  (2 ^ 62 < 5 -> Utils.NextPowerOfTwo 5 = Panic).
Proof.
  apply (NextPowerOfTwo_spec 5).
  unfold is_int, min_int, max_int. lia.
Defined.

(** ** Properties of the smart-vector constructors *)

Lemma multiple_small n k d : 0 < n -> n * k = d -> - n < d < n -> d = 0.
Proof.
  intros Hn Hk Hd.
  destruct (Z.lt_trichotomy k 0) as [Hlt|[->|Hgt]]; [|lia|].
  - assert (n * k <= n * (-1)) by (apply Z.mul_le_mono_nonneg_l; lia). lia.
  - assert (n * 1 <= n * k) by (apply Z.mul_le_mono_nonneg_l; lia). lia.
Qed.

Lemma PositiveMod_mod a n :
  0 < n <= max_int -> Utils.PositiveMod a n = Ok (a mod n).
Proof.
  unfold max_int. intros Hn. unfold Utils.PositiveMod.
  destruct (n =? 0) eqn:E0; [apply Z.eqb_eq in E0; lia|].
  pose proof (Z.mod_pos_bound a n ltac:(lia)) as Hmod.
  pose proof (Z.quot_rem' a n) as Hq.
  pose proof (Z.div_mod a n ltac:(lia)) as Hd.
  assert (Hr : - n < Z.rem a n < n).
  { destruct (Z.lt_ge_cases a 0) as [Ha|Ha].
    - pose proof (Z.rem_bound_pos_neg a n ltac:(lia) ltac:(lia)). lia.
    - pose proof (Z.rem_bound_pos_pos a n ltac:(lia) ltac:(lia)). lia. }
  destruct (Z.rem a n <? 0) eqn:E.
  - apply Z.ltb_lt in E. f_equal.
    rewrite wrap_small by (unfold is_int, min_int, max_int; lia).
    assert (Hk : n * (Z.quot a n - 1 - a / n) = a mod n - (Z.rem a n + n))
      by lia.
    apply multiple_small in Hk; lia.
  - apply Z.ltb_ge in E. f_equal.
    assert (Hk : n * (Z.quot a n - a / n) = a mod n - Z.rem a n) by lia.
    apply multiple_small in Hk; lia.
Qed.

Lemma PositiveMod_ok a n : n <> 0 -> is_ok (Utils.PositiveMod a n) = true.
Proof.
  intros Hn. unfold Utils.PositiveMod.
  destruct (n =? 0) eqn:E0; [apply Z.eqb_eq in E0; lia|].
  destruct (Z.rem a n <? 0); reflexivity.
Qed.

Section SmartvectorFacts.

Context {F : Type}.
Implicit Types (v : list F) (padding x : F) (s : @SmartVector F).

Lemma len_nonneg v : 0 <= len v.
Proof. unfold len. lia. Qed.

Lemma len_app v1 v2 : len (v1 ++ v2) = len v1 + len v2.
Proof. unfold len. rewrite length_app. lia. Qed.

Lemma len_replicate n x : 0 <= n -> len (replicate (Z.to_nat n) x) = n.
Proof. intros Hn. unfold len. rewrite length_replicate. lia. Qed.

Lemma index_lookup v i x :
  0 <= i -> v !! Z.to_nat i = Some x -> index v i = Ok x.
Proof.
  intros Hi Hl. unfold index.
  destruct (i <? 0) eqn:E; [apply Z.ltb_lt in E; lia|]. now rewrite Hl.
Qed.

Lemma index_in_range v i : 0 <= i < len v -> exists x, index v i = Ok x.
Proof.
  unfold len. intros Hi.
  destruct (lookup_lt_is_Some_2 v (Z.to_nat i)) as [x Hx]; [lia|].
  exists x. now apply index_lookup.
Qed.

Lemma index_app_l v1 v2 i :
  0 <= i < len v1 -> index (v1 ++ v2) i = index v1 i.
Proof.
  unfold len, index. intros Hi.
  destruct (i <? 0); [reflexivity|].
  rewrite lookup_app_l by lia. reflexivity.
Qed.

Lemma index_app_r v1 v2 i :
  len v1 <= i -> index (v1 ++ v2) i = index v2 (i - len v1).
Proof.
  unfold len, index. intros Hi.
  destruct (i <? 0) eqn:E; [apply Z.ltb_lt in E; lia|].
  destruct (i - Z.of_nat (length v1) <? 0) eqn:E';
    [apply Z.ltb_lt in E'; lia|].
  rewrite lookup_app_r by lia.
  replace (Z.to_nat i - length v1)%nat
    with (Z.to_nat (i - Z.of_nat (length v1))) by lia.
  reflexivity.
Qed.

Lemma index_replicate n x i :
  0 <= i < n -> index (replicate (Z.to_nat n) x) i = Ok x.
Proof.
  intros Hi. apply index_lookup; [lia|].
  apply lookup_replicate_2. lia.
Qed.

Lemma NewRegular_ok v : 0 < len v -> NewRegular v = Ok (SvRegular v).
Proof.
  intros H. unfold NewRegular.
  destruct (len v <=? 0) eqn:E; [apply Z.leb_le in E; lia|reflexivity].
Qed.

Lemma NewRegular_inv v s : NewRegular v = Ok s -> s = SvRegular v /\ 0 < len v.
Proof.
  unfold NewRegular. destruct (len v <=? 0) eqn:E; [discriminate|].
  apply Z.leb_gt in E. intros [= <-]. auto.
Qed.

Lemma NewConstant_ok x n :
  0 < n -> NewConstant x n = Ok (SvConstant (mkConstant x n)).
Proof.
  intros H. unfold NewConstant.
  destruct (n <=? 0) eqn:E; [apply Z.leb_le in E; lia|reflexivity].
Qed.

Lemma NewPaddedCircularWindow_ok v x o n :
  len v <= n -> 0 < n <= max_int ->
  NewPaddedCircularWindow v x o n =
  Ok (SvPaddedCircularWindow (mkPaddedCircularWindow v x (o mod n) n)).
Proof.
  intros Hv Hn. unfold NewPaddedCircularWindow.
  destruct (n <=? 0) eqn:E; [apply Z.leb_le in E; lia|].
  destruct (len v >? n) eqn:E'; [apply Z.gtb_gt in E'; lia|].
  rewrite PositiveMod_mod by lia. reflexivity.
Qed.

(** The three branches of the two padding functions. *)
Lemma LeftPadded_full v padding :
  LeftPadded v padding (len v) = NewRegular v.
Proof.
  unfold LeftPadded.
  destruct (len v >? len v) eqn:E; [apply Z.gtb_gt in E; lia|].
  now rewrite Z.eqb_refl.
Qed.

Lemma RightPadded_full v padding :
  RightPadded v padding (len v) = NewRegular v.
Proof.
  unfold RightPadded.
  destruct (len v >? len v) eqn:E; [apply Z.gtb_gt in E; lia|].
  now rewrite Z.eqb_refl.
Qed.

Lemma LeftPadded_empty padding n :
  0 < n -> LeftPadded [] padding n = NewConstant padding n.
Proof.
  intros Hn. unfold LeftPadded. change (len []) with 0.
  destruct (0 >? n) eqn:E; [apply Z.gtb_gt in E; lia|].
  destruct (0 =? n) eqn:E'; [apply Z.eqb_eq in E'; lia|]. reflexivity.
Qed.

Lemma RightPadded_empty padding n :
  0 < n -> RightPadded [] padding n = NewConstant padding n.
Proof.
  intros Hn. unfold RightPadded. change (len []) with 0.
  destruct (0 >? n) eqn:E; [apply Z.gtb_gt in E; lia|].
  destruct (0 =? n) eqn:E'; [apply Z.eqb_eq in E'; lia|]. reflexivity.
Qed.

Lemma LeftPadded_window v padding n :
  0 < len v < n ->
  LeftPadded v padding n =
  NewPaddedCircularWindow v padding (wrap (n - len v)) n.
Proof.
  intros Hn. unfold LeftPadded.
  destruct (len v >? n) eqn:E; [apply Z.gtb_gt in E; lia|].
  destruct (len v =? n) eqn:E'; [apply Z.eqb_eq in E'; lia|].
  destruct (len v =? 0) eqn:E''; [apply Z.eqb_eq in E''; lia|]. reflexivity.
Qed.

Lemma RightPadded_window v padding n :
  0 < len v < n ->
  RightPadded v padding n = NewPaddedCircularWindow v padding 0 n.
Proof.
  intros Hn. unfold RightPadded.
  destruct (len v >? n) eqn:E; [apply Z.gtb_gt in E; lia|].
  destruct (len v =? n) eqn:E'; [apply Z.eqb_eq in E'; lia|].
  destruct (len v =? 0) eqn:E''; [apply Z.eqb_eq in E''; lia|]. reflexivity.
Qed.

End SmartvectorFacts.

Lemma mod_neg a n : - n <= a < 0 -> a mod n = a + n.
Proof.
  intros H. symmetry. apply (Z.mod_unique_pos a n (-1)); lia.
Qed.

(** C3. [Density] is 0 on a Constant, the window length on a
    PaddedCircularWindow, the full length on a Regular, the length of the
    underlying slice on a Rotated, and panics on any other dynamic type. *)
Theorem Density_spec {F : Type} :
  (forall c : @Constant F, Density (OfPackage (SvConstant c)) = Ok 0) /\
  (forall w : @PaddedCircularWindow F,
     Density (OfPackage (SvPaddedCircularWindow w)) = Ok (len (window w))) /\
  (forall r : @Regular F, Density (OfPackage (SvRegular r)) = Ok (len r)) /\
  (forall r : @Rotated F, Density (OfPackage (SvRotated r)) = Ok (len (v r))) /\
  Density (@Foreign F) = Panic.
Proof.
  repeat split; intros; try reflexivity.
  destruct r; reflexivity.
Qed.

Section Padding.

Context {F : Type}.
Implicit Types (v : list F) (padding : F).

Lemma Get_left_window v padding n i :
  0 < len v < n -> n <= max_int -> 0 <= i < n ->
  Get (SvPaddedCircularWindow
         (mkPaddedCircularWindow v padding (n - len v) n)) i
  = index (replicate (Z.to_nat (n - len v)) padding ++ v) i.
Proof.
  intros Hv Hn Hi. unfold Get. cbn [Len totLen offset window paddedVal].
  destruct (0 <=? i) eqn:E1; [|apply Z.leb_gt in E1; lia].
  destruct (i <? n) eqn:E2; [|apply Z.ltb_ge in E2; lia].
  cbn [andb]. rewrite PositiveMod_mod by lia. cbn.
  destruct (Z.lt_ge_cases i (n - len v)) as [Hlt|Hge].
  - rewrite mod_neg by lia.
    destruct (i - (n - len v) + n <? len v) eqn:E3;
      [apply Z.ltb_lt in E3; lia|].
    rewrite index_app_l by (rewrite len_replicate; lia).
    now rewrite index_replicate by lia.
  - rewrite Z.mod_small by lia.
    destruct (i - (n - len v) <? len v) eqn:E3;
      [|apply Z.ltb_ge in E3; lia].
    rewrite index_app_r by (rewrite len_replicate; lia).
    now rewrite len_replicate by lia.
Qed.

Lemma Get_right_window v padding n i :
  0 < len v < n -> n <= max_int -> 0 <= i < n ->
  Get (SvPaddedCircularWindow (mkPaddedCircularWindow v padding 0 n)) i
  = index (v ++ replicate (Z.to_nat (n - len v)) padding) i.
Proof.
  intros Hv Hn Hi. unfold Get. cbn [Len totLen offset window paddedVal].
  destruct (0 <=? i) eqn:E1; [|apply Z.leb_gt in E1; lia].
  destruct (i <? n) eqn:E2; [|apply Z.ltb_ge in E2; lia].
  cbn [andb]. rewrite PositiveMod_mod by lia. cbn.
  rewrite Z.sub_0_r, Z.mod_small by lia.
  destruct (i <? len v) eqn:E3.
  - apply Z.ltb_lt in E3. now rewrite index_app_l by lia.
  - apply Z.ltb_ge in E3. rewrite index_app_r by lia.
    now rewrite index_replicate by lia.
Qed.

Lemma Get_constant padding n i :
  0 <= i < n -> Get (SvConstant (mkConstant padding n)) i = Ok padding.
Proof.
  intros Hi. unfold Get. cbn [Len length_ val].
  destruct (0 <=? i) eqn:E1; [|apply Z.leb_gt in E1; lia].
  destruct (i <? n) eqn:E2; [|apply Z.ltb_ge in E2; lia].
  reflexivity.
Qed.

Lemma Get_regular v i : 0 <= i < len v -> Get (SvRegular v) i = index v i.
Proof.
  intros Hi. unfold Get. cbn [Len].
  destruct (0 <=? i) eqn:E1; [|apply Z.leb_gt in E1; lia].
  destruct (i <? len v) eqn:E2; [|apply Z.ltb_ge in E2; lia].
  reflexivity.
Qed.

End Padding.

(** C4. For a slice v that fits in targetLen > 0, [LeftPadded] and
    [RightPadded] return a vector of length targetLen whose entries are
    those of v preceded (resp. followed) by copies of padding; the result
    is the Regular wrapping of v when len(v) = targetLen, a Constant when
    len(v) = 0, and otherwise a PaddedCircularWindow over v, of Density
    len(v). *)
Theorem Padded_spec {F : Type} (v : list F) (padding : F) (targetLen : Z) :
  len v <= targetLen -> 0 < targetLen <= max_int ->
  exists l r,
    LeftPadded v padding targetLen = Ok l /\
    RightPadded v padding targetLen = Ok r /\
    Len l = targetLen /\ Len r = targetLen /\
    (forall i, 0 <= i < targetLen ->
       Get l i =
         index (replicate (Z.to_nat (targetLen - len v)) padding ++ v) i /\
       Get r i =
         index (v ++ replicate (Z.to_nat (targetLen - len v)) padding) i) /\
    (len v = targetLen -> l = SvRegular v /\ r = SvRegular v) /\
    (len v = 0 ->
       l = SvConstant (mkConstant padding targetLen) /\
       r = SvConstant (mkConstant padding targetLen)) /\
    (0 < len v < targetLen ->
       l = SvPaddedCircularWindow
             (mkPaddedCircularWindow v padding (targetLen - len v) targetLen) /\
       r = SvPaddedCircularWindow
             (mkPaddedCircularWindow v padding 0 targetLen) /\
       Density (OfPackage l) = Ok (len v) /\
       Density (OfPackage r) = Ok (len v)).
Proof.
  intros Hv Ht. pose proof (len_nonneg v) as Hnn.
  destruct (Z.eq_dec (len v) targetLen) as [Heq|Hne];
    [|destruct (Z.eq_dec (len v) 0) as [H0|Hpos]].
  - (* full length *)
    exists (SvRegular v), (SvRegular v). subst targetLen.
    rewrite LeftPadded_full, RightPadded_full, NewRegular_ok by lia.
    repeat split; try reflexivity; try lia.
    + rewrite Get_regular by lia. rewrite Z.sub_diag. reflexivity.
    + rewrite Get_regular by lia. rewrite Z.sub_diag. cbn.
      now rewrite app_nil_r.
  - (* empty slice *)
    assert (Hnil : v = []).
    { destruct v; [reflexivity|]. unfold len in H0. cbn in H0. lia. }
    subst v. change (len []) with 0 in *.
    exists (SvConstant (mkConstant padding targetLen)),
           (SvConstant (mkConstant padding targetLen)).
    rewrite LeftPadded_empty, RightPadded_empty, NewConstant_ok by lia.
    repeat split; try reflexivity; try lia.
    + rewrite Get_constant by lia. rewrite app_nil_r, Z.sub_0_r.
      now rewrite index_replicate by lia.
    + rewrite Get_constant by lia. cbn [app]. rewrite Z.sub_0_r.
      now rewrite index_replicate by lia.
  - (* proper window *)
    exists (SvPaddedCircularWindow
              (mkPaddedCircularWindow v padding (targetLen - len v) targetLen)),
           (SvPaddedCircularWindow
              (mkPaddedCircularWindow v padding 0 targetLen)).
    rewrite LeftPadded_window, RightPadded_window by lia.
    rewrite !NewPaddedCircularWindow_ok by lia.
    rewrite wrap_small
      by (unfold is_int, min_int, max_int in *; lia).
    rewrite Z.mod_small by lia. rewrite Z.mod_0_l by lia.
    repeat split; try reflexivity; try lia.
    + now apply Get_left_window; lia.
    + now apply Get_right_window; lia.
Qed.

Lemma Padded_spec_witness :
  exists l r : @SmartVector Z,
    LeftPadded [1; 2] 0 4 = Ok l /\ RightPadded [1; 2] 0 4 = Ok r /\
    Get l 3 = Ok 2 /\ Get r 3 = Ok 0.
Proof.
  destruct (Padded_spec [1; 2] 0 4) as (l & r & Hl & Hr & _ & _ & Hget & _).
  - unfold len. cbn. lia.
  - unfold max_int. lia.
  - exists l, r. destruct (Hget 3 ltac:(lia)) as [H1 H2].
    repeat split; assumption.
Defined.

(** C10, as stated, fails: with an empty slice and target length 0 the
    length test passes (0 <= 0) and both functions still panic, in the
    constructor of the Regular, which rejects length 0. *)
Lemma Padded_panics_on_empty_zero :
  len (@nil Z) <= 0 /\
  LeftPadded (@nil Z) 7 0 = Panic /\
  RightPadded (@nil Z) 7 0 = Panic /\
  ~ (LeftPadded (@nil Z) 7 0 = Panic <-> len (@nil Z) > 0) /\
  ~ (RightPadded (@nil Z) 7 0 = Panic <-> len (@nil Z) > 0).
Proof.
  change (len (@nil Z)) with 0.
  split; [lia|]. split; [reflexivity|]. split; [reflexivity|].
  split; intros [H _]; specialize (H eq_refl); lia.
Qed.

(** C10, amended. [LeftPadded] and [RightPadded] panic exactly when
    len(v) > targetLen or targetLen = 0; whenever len(v) <= targetLen and
    targetLen is not 0 they return. *)
Theorem Padded_panic_iff {F : Type} (v : list F) (padding : F) (targetLen : Z) :
  (LeftPadded v padding targetLen = Panic <->
     len v > targetLen \/ targetLen = 0) /\
  (RightPadded v padding targetLen = Panic <->
     len v > targetLen \/ targetLen = 0).
Proof.
  pose proof (len_nonneg v) as Hnn.
  assert (Hw : forall o, 0 < len v < targetLen ->
            NewPaddedCircularWindow v padding o targetLen <> Panic).
  { intros o H. unfold NewPaddedCircularWindow.
    destruct (targetLen <=? 0) eqn:E; [apply Z.leb_le in E; lia|].
    destruct (len v >? targetLen) eqn:E'; [apply Z.gtb_gt in E'; lia|].
    pose proof (PositiveMod_ok o targetLen ltac:(lia)) as Hok.
    destruct (Utils.PositiveMod o targetLen); [discriminate|discriminate]. }
  unfold LeftPadded, RightPadded.
  destruct (len v >? targetLen) eqn:E1.
  { apply Z.gtb_gt in E1. split; (split; [intros _; left; lia|reflexivity]). }
  rewrite Z.gtb_ltb in E1. apply Z.ltb_ge in E1.
  destruct (len v =? targetLen) eqn:E2.
  { apply Z.eqb_eq in E2. unfold NewRegular.
    destruct (len v <=? 0) eqn:E3.
    - apply Z.leb_le in E3. split; (split; [intros _; right; lia|reflexivity]).
    - apply Z.leb_gt in E3. split; (split; [discriminate|lia]). }
  apply Z.eqb_neq in E2.
  destruct (len v =? 0) eqn:E3.
  { apply Z.eqb_eq in E3. rewrite NewConstant_ok by lia.
    split; (split; [discriminate|lia]). }
  apply Z.eqb_neq in E3.
  split; (split; [intros H; apply Hw in H; [contradiction|lia] | lia]).
Qed.

Lemma LeftPadded_zero_target {F : Type} (v : list F) padding :
  LeftPadded v padding 0 = Panic.
Proof.
  pose proof (len_nonneg v) as Hnn. unfold LeftPadded, NewRegular.
  destruct (len v >? 0) eqn:E1; [reflexivity|].
  rewrite Z.gtb_ltb in E1. apply Z.ltb_ge in E1.
  replace (len v) with 0 by lia. reflexivity.
Qed.

Lemma RightPadded_zero_target {F : Type} (v : list F) padding :
  RightPadded v padding 0 = Panic.
Proof.
  pose proof (len_nonneg v) as Hnn. unfold RightPadded, NewRegular.
  destruct (len v >? 0) eqn:E1; [reflexivity|].
  rewrite Z.gtb_ltb in E1. apply Z.ltb_ge in E1.
  replace (len v) with 0 by lia. reflexivity.
Qed.

Lemma NewRegular_positive {F : Type} (v : list F) s :
  NewRegular v = Ok s -> 0 < Len s.
Proof. intros H. apply NewRegular_inv in H as [-> H]. exact H. Qed.

Lemma LeftPadded_positive {F : Type} (v : list F) padding targetLen s :
  LeftPadded v padding targetLen = Ok s -> 0 < Len s.
Proof.
  unfold LeftPadded.
  destruct (len v >? targetLen); [discriminate|].
  destruct (len v =? targetLen); [apply NewRegular_positive|].
  destruct (len v =? 0).
  - unfold NewConstant. destruct (targetLen <=? 0) eqn:E; [discriminate|].
    apply Z.leb_gt in E. intros [= <-]. exact E.
  - unfold NewPaddedCircularWindow.
    destruct (targetLen <=? 0) eqn:E; [discriminate|]. apply Z.leb_gt in E.
    destruct (len v >? targetLen); [discriminate|].
    destruct (Utils.PositiveMod _ _); [|discriminate].
    intros [= <-]. exact E.
Qed.

Lemma RightPadded_positive {F : Type} (v : list F) padding targetLen s :
  RightPadded v padding targetLen = Ok s -> 0 < Len s.
Proof.
  unfold RightPadded.
  destruct (len v >? targetLen); [discriminate|].
  destruct (len v =? targetLen); [apply NewRegular_positive|].
  destruct (len v =? 0).
  - unfold NewConstant. destruct (targetLen <=? 0) eqn:E; [discriminate|].
    apply Z.leb_gt in E. intros [= <-]. exact E.
  - unfold NewPaddedCircularWindow.
    destruct (targetLen <=? 0) eqn:E; [discriminate|]. apply Z.leb_gt in E.
    destruct (len v >? targetLen); [discriminate|].
    destruct (Utils.PositiveMod _ _); [|discriminate].
    intros [= <-]. exact E.
Qed.

(** C6. Every smart-vector produced by [AllocateRegular], [NewRegular]
    (directly or through [Rand], [PseudoRand], [ForTest]), [LeftPadded],
    [RightPadded] or their zero-padded variants has Len() > 0, and a
    construction of length 0 panics instead of yielding an empty vector. *)
Theorem constructors_positive_len {F : Type} (field_Zero : F) (Rng : Type)
    (vector_Rand : Z -> result (list F))
    (vector_PseudoRand : Rng -> Z -> result (list F * Rng))
    (vector_ForTest : list Z -> list F) (s : SmartVector) :
  produced field_Zero Rng vector_Rand vector_PseudoRand vector_ForTest s ->
  0 < Len s /\ rejects_zero_length field_Zero.
Proof.
  intros Hp. split.
  - destruct Hp as [n s H|v s H|n s H|rng n s rng' H|xs s H
                   |v p t s H|v p t s H|v t s H|v t s H].
    + unfold AllocateRegular in H. destruct (make field_Zero n); [|discriminate].
      now apply NewRegular_positive in H.
    + now apply NewRegular_positive in H.
    + unfold Rand in H. destruct (vector_Rand n); [|discriminate].
      now apply NewRegular_positive in H.
    + unfold PseudoRand in H.
      destruct (vector_PseudoRand rng n) as [[v r]|]; [|discriminate].
      cbn in H. destruct (NewRegular v) eqn:E; [|discriminate].
      cbn in H. injection H as <- <-. now apply NewRegular_positive in E.
    + now apply NewRegular_positive in H.
    + now apply LeftPadded_positive in H.
    + now apply RightPadded_positive in H.
    + now apply LeftPadded_positive in H.
    + now apply RightPadded_positive in H.
  - unfold rejects_zero_length, LeftZeroPadded, RightZeroPadded.
    repeat split; intros;
      try apply LeftPadded_zero_target;
      try apply RightPadded_zero_target; try reflexivity.
    match goal with H : len ?l = 0 |- _ => unfold NewRegular; now rewrite H end.
Qed.

Lemma constructors_positive_len_witness :
  0 < Len (SvRegular [3; 4]) /\ rejects_zero_length 0.
Proof.
  apply (constructors_positive_len 0 unit (fun _ => Panic)
           (fun _ _ => Panic) (fun xs => xs)).
  apply (by_NewRegular _ _ _ _ _ [3; 4]). reflexivity.
Defined.

(** ** Materializing a smart-vector and wrapping it again *)

Section RoundTrip.

Context {F : Type}.
Variable field_Zero : F.
Implicit Types (l : list F) (s : @SmartVector F).

Lemma len_rotate k l : len (rotate k l) = len l.
Proof. unfold len. now rewrite length_rotate. Qed.

Lemma index_rotate l k i :
  0 <= k -> 0 <= i < len l ->
  index (rotate (Z.to_nat k) l) i = index l ((k + i) mod len l).
Proof.
  unfold len. intros Hk Hi.
  pose proof (Z.mod_pos_bound (k + i) (Z.of_nat (length l)) ltac:(lia)) as Hm.
  unfold index.
  destruct (i <? 0) eqn:E; [apply Z.ltb_lt in E; lia|].
  destruct ((k + i) mod Z.of_nat (length l) <? 0) eqn:E';
    [apply Z.ltb_lt in E'; lia|].
  rewrite lookup_rotate_r by lia. unfold rotate_nat_add.
  rewrite !Z2Nat.id by lia. reflexivity.
Qed.

Lemma make_ok n :
  0 <= n -> make field_Zero n = Ok (replicate (Z.to_nat n) field_Zero).
Proof.
  intros Hn. unfold make.
  destruct (n <? 0) eqn:E; [apply Z.ltb_lt in E; lia|reflexivity].
Qed.

Lemma IntoRegVec_SaveAlloc s :
  0 <= Len s -> IntoRegVec field_Zero s = IntoRegVecSaveAlloc field_Zero s.
Proof.
  intros Hn. unfold IntoRegVec. rewrite make_ok by lia. cbn.
  unfold WriteInSlice. rewrite len_replicate by lia.
  now rewrite Z.eqb_refl.
Qed.

Lemma materialize_constant (c : @Constant F) :
  0 < length_ c ->
  IntoRegVecSaveAlloc field_Zero (SvConstant c)
  = Ok (replicate (Z.to_nat (length_ c)) (val c)).
Proof.
  intros H. cbn. rewrite make_ok by lia. cbn.
  unfold fill. now rewrite length_replicate.
Qed.

Lemma materialize_window (w : @PaddedCircularWindow F) :
  0 < totLen w <= max_int -> len (window w) <= totLen w ->
  IntoRegVecSaveAlloc field_Zero (SvPaddedCircularWindow w)
  = Ok (rotate (Z.to_nat ((totLen w - offset w) mod totLen w))
          (window w ++
           replicate (Z.to_nat (totLen w - len (window w))) (paddedVal w))).
Proof.
  intros Ht Hw. cbn. rewrite make_ok by lia. cbn.
  rewrite PositiveMod_mod by lia. cbn.
  unfold fill. now rewrite length_replicate.
Qed.

Lemma materialize_rotated (r : @Rotated F) :
  0 < len (v r) <= max_int ->
  IntoRegVecSaveAlloc field_Zero (SvRotated r)
  = Ok (rotate (Z.to_nat (rot_offset r mod len (v r))) (v r)).
Proof. intros H. cbn. rewrite PositiveMod_mod by lia. reflexivity. Qed.

Lemma Get_window_rotate (w : @PaddedCircularWindow F) i :
  0 < totLen w <= max_int -> len (window w) <= totLen w ->
  0 <= i < totLen w ->
  exists x,
    Get (SvPaddedCircularWindow w) i = Ok x /\
    index (rotate (Z.to_nat ((totLen w - offset w) mod totLen w))
             (window w ++
              replicate (Z.to_nat (totLen w - len (window w))) (paddedVal w)))
          i = Ok x.
Proof.
  destruct w as [win pad off n]. cbn [totLen window offset paddedVal].
  intros Hn Hw Hi. pose proof (len_nonneg win) as Hnn.
  pose proof (Z.mod_pos_bound (n - off) n ltac:(lia)) as Hk.
  pose proof (Z.mod_pos_bound (i - off) n ltac:(lia)) as Hp.
  assert (Hlen : len (win ++ replicate (Z.to_nat (n - len win)) pad) = n).
  { rewrite len_app, len_replicate by lia. lia. }
  rewrite index_rotate by (rewrite ?Hlen; lia). rewrite Hlen.
  rewrite Z.add_mod_idemp_l by lia.
  replace (n - off + i) with (i - off + 1 * n) by lia.
  rewrite Z.mod_add by lia.
  unfold Get. cbn [Len totLen window offset paddedVal].
  destruct (0 <=? i) eqn:E1; [|apply Z.leb_gt in E1; lia].
  destruct (i <? n) eqn:E2; [|apply Z.ltb_ge in E2; lia].
  cbn [andb]. rewrite PositiveMod_mod by lia. cbn.
  destruct ((i - off) mod n <? len win) eqn:E3.
  - apply Z.ltb_lt in E3. rewrite index_app_l by lia.
    destruct (index_in_range win ((i - off) mod n) ltac:(lia)) as [x Hx].
    exists x. now rewrite Hx.
  - apply Z.ltb_ge in E3. exists pad. split; [reflexivity|].
    rewrite index_app_r by lia. now rewrite index_replicate by lia.
Qed.

Lemma Get_rotated_rotate (r : @Rotated F) i :
  0 < len (v r) <= max_int -> 0 <= i < len (v r) ->
  exists x,
    Get (SvRotated r) i = Ok x /\
    index (rotate (Z.to_nat (rot_offset r mod len (v r))) (v r)) i = Ok x.
Proof.
  destruct r as [vec off]. cbn [v rot_offset]. intros Hn Hi.
  pose proof (Z.mod_pos_bound off (len vec) ltac:(lia)) as Hk.
  pose proof (Z.mod_pos_bound (i + off) (len vec) ltac:(lia)) as Hp.
  rewrite index_rotate by lia.
  rewrite Z.add_mod_idemp_l by lia. rewrite (Z.add_comm off i).
  unfold Get. cbn [Len v rot_offset].
  destruct (0 <=? i) eqn:E1; [|apply Z.leb_gt in E1; lia].
  destruct (i <? len vec) eqn:E2; [|apply Z.ltb_ge in E2; lia].
  cbn [andb]. rewrite PositiveMod_mod by lia. cbn.
  destruct (index_in_range vec ((i + off) mod len vec) ltac:(lia)) as [x Hx].
  exists x. now rewrite Hx.
Qed.

End RoundTrip.

(** C5. For a smart-vector s of any of the four variants, of any
    positive length (so in particular any power of two from 2 upwards),
    [IntoRegVecSaveAlloc] and [IntoRegVec] return the same dense slice,
    which [NewRegular] wraps as a Regular of the same length whose entry
    at every index i in [0, s.Len()) is the entry [s.Get(i)]. *)
Theorem materialize_roundtrip {F : Type} (field_Zero : F) (s : SmartVector) :
  well_formed s ->
  exists vec,
    IntoRegVecSaveAlloc field_Zero s = Ok vec /\
    IntoRegVec field_Zero s = Ok vec /\
    NewRegular vec = Ok (SvRegular vec) /\
    Len (SvRegular vec) = Len s /\
    forall i, 0 <= i < Len s ->
      exists x, Get s i = Ok x /\ Get (SvRegular vec) i = Ok x.
Proof.
  intros [Hlen Hwf].
  rewrite IntoRegVec_SaveAlloc by lia.
  destruct s as [c|w|r|r]; cbn [Len] in *.
  - exists (replicate (Z.to_nat (length_ c)) (val c)).
    rewrite materialize_constant by lia.
    assert (Hl : len (replicate (Z.to_nat (length_ c)) (val c)) = length_ c)
      by (rewrite len_replicate; lia).
    rewrite NewRegular_ok by lia.
    repeat split; try assumption. intros i Hi. exists (val c).
    destruct c as [x n]; cbn [val length_] in *.
    rewrite Get_constant by lia.
    rewrite Get_regular by lia. now rewrite index_replicate by lia.
  - exists (rotate (Z.to_nat ((totLen w - offset w) mod totLen w))
              (window w ++
               replicate (Z.to_nat (totLen w - len (window w))) (paddedVal w))).
    rewrite materialize_window by lia.
    assert (Hl : forall k,
              len (rotate k (window w ++
                     replicate (Z.to_nat (totLen w - len (window w)))
                               (paddedVal w))) = totLen w).
    { intros k. pose proof (len_nonneg (window w)).
      rewrite len_rotate, len_app, len_replicate by lia. lia. }
    rewrite NewRegular_ok by (rewrite Hl; lia).
    repeat split; [apply Hl|]. intros i Hi.
    rewrite Get_regular by (rewrite Hl; lia).
    now apply Get_window_rotate.
  - exists r. cbn [IntoRegVecSaveAlloc].
    rewrite NewRegular_ok by lia.
    repeat split. intros i Hi.
    destruct (index_in_range r i Hi) as [x Hx]. exists x.
    rewrite Get_regular by lia. auto.
  - exists (rotate (Z.to_nat (rot_offset r mod len (v r))) (v r)).
    rewrite materialize_rotated by lia.
    rewrite NewRegular_ok by (rewrite len_rotate; lia).
    repeat split; [apply len_rotate|]. intros i Hi.
    rewrite Get_regular by (rewrite len_rotate; lia).
    now apply Get_rotated_rotate.
Qed.

Lemma materialize_roundtrip_witness :
  exists vec : list Z,
    IntoRegVecSaveAlloc 0
      (SvPaddedCircularWindow (mkPaddedCircularWindow [5; 6] 9 3 4)) = Ok vec /\
    NewRegular vec = Ok (SvRegular vec).
Proof.
  destruct (materialize_roundtrip 0
              (SvPaddedCircularWindow (mkPaddedCircularWindow [5; 6] 9 3 4)))
    as (vec & H1 & _ & H2 & _).
  - split; [cbn; unfold max_int; lia|]. cbn. unfold len. cbn. lia.
  - exists vec. split; assumption.
Defined.

Example roundtrip_window_run :
  IntoRegVecSaveAlloc 0
    (SvPaddedCircularWindow (mkPaddedCircularWindow [5; 6] 9 3 4))
  = Ok [6; 9; 9; 5].
Proof. reflexivity. Qed.

Example roundtrip_rotated_run :
  IntoRegVec 0 (SvRotated (mkRotated [1; 2; 3; 4] (-1))) = Ok [4; 1; 2; 3] /\
  Get (SvRotated (mkRotated [1; 2; 3; 4] (-1))) 0 = Ok 4.
Proof. split; reflexivity. Qed.

(** ** The production suite and the memoized entry point *)

(** C2, as stated, fails on the folding parameter and on the opened
    columns: the first argument of [vortex.Compile] goes 2, 2, 8, 8 (it
    grows), the opened-column count goes 256, 256, 64, 64 (it stays put
    twice), and the suite has four Vortex stages but three SelfRecursion
    stages, so it is not four copies of the five-pass sequence. *)
Lemma suite_folding_not_decreasing :
  vortexFoldings fullCompilationSuite = [2; 2; 8; 8] /\
  vortexOpened fullCompilationSuite = [256; 256; 64; 64] /\
  ~ chain Z.ge (vortexFoldings fullCompilationSuite) /\
  ~ chain Z.gt (vortexOpened fullCompilationSuite) /\
  countStep isVortex fullCompilationSuite = 4%nat /\
  countStep isSelfRecurse fullCompilationSuite = 3%nat /\
  ~ (exists r1 r2 r3 r4,
       fullCompilationSuite =
       fivePassRound r1 ++ fivePassRound r2 ++
       fivePassRound r3 ++ fivePassRound r4).
Proof.
  split; [reflexivity|]. split; [reflexivity|].
  split; [cbn; lia|]. split; [cbn; lia|].
  split; [reflexivity|]. split; [reflexivity|].
  intros (r1 & r2 & r3 & r4 & H).
  apply (f_equal length) in H. cbn in H. discriminate.
Qed.

(** C2, amended. The suite is four rounds of MiMC-compile / Arcane /
    Vortex, chained by a SelfRecursion and a Cleanup between consecutive
    rounds (three times; none follows the last Vortex). The Arcane bound
    strictly decreases (2^19, 2^18, 2^16, 2^13), the opened-column count
    never increases (256, 256, 64, 64), the first Vortex argument never
    decreases (2, 2, 8, 8), and the last Vortex stage alone uses
    [ReplaceSisByMimc], the three before it the SIS instance. *)
Theorem fullCompilationSuite_rounds :
  exists r1 r2 r3 r4,
    fullCompilationSuite = chainedRounds [r1; r2; r3; r4] /\
    chain Z.gt (map maxBound [r1; r2; r3; r4]) /\
    map maxBound [r1; r2; r3; r4] = [2 ^ 19; 2 ^ 18; 2 ^ 16; 2 ^ 13] /\
    chain Z.ge (map openedColumnCount [r1; r2; r3; r4]) /\
    chain Z.le (map foldingParam [r1; r2; r3; r4]) /\
    map commitment [r1; r2; r3; r4] =
      [vortex_WithSISParams sisInstance; vortex_WithSISParams sisInstance;
       vortex_WithSISParams sisInstance; vortex_ReplaceSisByMimc] /\
    arcaneMaxBounds fullCompilationSuite = map maxBound [r1; r2; r3; r4] /\
    vortexOpened fullCompilationSuite
      = map openedColumnCount [r1; r2; r3; r4] /\
    vortexFoldings fullCompilationSuite = map foldingParam [r1; r2; r3; r4] /\
    vortexReplacesSis fullCompilationSuite = [false; false; false; true] /\
    countStep isVortex fullCompilationSuite = 4%nat /\
    countStep isSelfRecurse fullCompilationSuite = 3%nat.
Proof.
  exists {| maxBound := 2 ^ 19; foldingParam := 2; openedColumnCount := 256;
            commitment := vortex_WithSISParams sisInstance |},
         {| maxBound := 2 ^ 18; foldingParam := 2; openedColumnCount := 256;
            commitment := vortex_WithSISParams sisInstance |},
         {| maxBound := 2 ^ 16; foldingParam := 8; openedColumnCount := 64;
            commitment := vortex_WithSISParams sisInstance |},
         {| maxBound := 2 ^ 13; foldingParam := 8; openedColumnCount := 64;
            commitment := vortex_ReplaceSisByMimc |}.
  split; [reflexivity|]. split; [cbn; lia|]. split; [reflexivity|].
  split; [cbn; lia|]. split; [cbn; lia|]. repeat split.
Qed.

(** ** Memoization of [FullZkEvm] *)

Section Memo.

Variable ZkEvm : Type.
Variable NewZkEVM : Settings -> result ZkEvm.

Local Abbreviation FullZkEvm := (FullZkEvm NewZkEVM).
Local Abbreviation afterCalls := (afterCalls NewZkEVM).
Local Abbreviation Globals := (Globals ZkEvm).

(** Once the guard is set, a call only reads the global. *)
Lemma FullZkEvm_done tl (g : Globals) :
  onceFullZkEvm g = true -> FullZkEvm tl g = (Ok (fullZkEvm g), g).
Proof. intros H. unfold FullZkEvm, once_Do. now rewrite H. Qed.

Lemma afterCalls_done tls (g : Globals) :
  onceFullZkEvm g = true -> afterCalls tls g = g.
Proof.
  intros H. induction tls as [|tl rest IH]; [reflexivity|].
  cbn [Zkevm.afterCalls]. now rewrite FullZkEvm_done.
Qed.

(** A call on a fresh guard sets it, and runs the body exactly once. *)
Lemma FullZkEvm_fresh tl (g : Globals) :
  onceFullZkEvm g = false ->
  onceFullZkEvm (snd (FullZkEvm tl g)) = true /\
  compilations (snd (FullZkEvm tl g)) = S (compilations g).
Proof.
  intros H. unfold FullZkEvm, once_Do, compileBody. rewrite H.
  destruct (fullSettings tl ≫= NewZkEVM); cbn; auto.
Qed.

Lemma FullZkEvm_first tl p (g1 : Globals) :
  FullZkEvm tl startup = (Ok p, g1) ->
  onceFullZkEvm g1 = true /\ fullZkEvm g1 = p /\
  compilations g1 = 1%nat /\
  exists z, p = Some 0%nat /\ allocated g1 = [z] /\
            (fullSettings tl ≫= NewZkEVM) = Ok z.
Proof.
  unfold FullZkEvm, once_Do, compileBody. cbn.
  destruct (fullSettings tl ≫= NewZkEVM) as [z|]; cbn; [|discriminate].
  intros [= <- <-]. cbn. repeat split. exists z. auto.
Qed.

Lemma compilations_at_most_once tls :
  (compilations (afterCalls tls startup) <= 1)%nat.
Proof.
  destruct tls as [|tl rest]; [cbn; lia|].
  cbn [Zkevm.afterCalls].
  destruct (FullZkEvm_fresh tl startup eq_refl) as [Hd Hc].
  rewrite afterCalls_done by exact Hd. rewrite Hc. cbn. lia.
Qed.

End Memo.

(** C1. If the first call of [FullZkEvm] in a process returns an
    instance, then every later call, after any number of calls by any
    callers and with any [TracesLimits], returns that same pointer and
    leaves the globals untouched; the compilation body has run once, and
    it never runs more than once. *)
Theorem FullZkEvm_memoized (ZkEvm : Type) (NewZkEVM : Settings -> result ZkEvm)
    (tl1 : option TracesLimits) (p : option nat) (g1 : Globals ZkEvm)
    (tls : list (option TracesLimits)) (tl2 : option TracesLimits) :
  FullZkEvm NewZkEVM tl1 startup = (Ok p, g1) ->
  FullZkEvm NewZkEVM tl2 (afterCalls NewZkEVM tls g1)
    = (Ok p, g1) /\
  (exists z, p = Some 0%nat /\ allocated g1 = [z] /\
             (fullSettings tl1 ≫= NewZkEVM) = Ok z) /\
  compilations g1 = 1%nat /\
  (forall tls',
     (compilations (afterCalls NewZkEVM tls' startup) <= 1)%nat).
Proof.
  intros H1.
  destruct (FullZkEvm_first ZkEvm NewZkEVM tl1 p g1 H1)
    as (Hdone & Hp & Hc & Hz).
  rewrite afterCalls_done by exact Hdone.
  rewrite FullZkEvm_done by exact Hdone. rewrite Hp.
  repeat split; try assumption.
  intros tls'. apply compilations_at_most_once.
Qed.

Lemma FullZkEvm_memoized_witness :
  let g1 := snd (FullZkEvm (ZkEvm:=Settings) Ok (Some (sampleLimits 100))
                   startup) in
  FullZkEvm (ZkEvm:=Settings) Ok (Some (sampleLimits 7))
    (afterCalls (ZkEvm:=Settings) Ok [None; Some (sampleLimits 9)] g1)
  = (Ok (Some 0%nat), g1).
Proof.
  intros g1.
  apply (FullZkEvm_memoized Settings Ok (Some (sampleLimits 100))
           (Some 0%nat) g1 [None; Some (sampleLimits 9)]
           (Some (sampleLimits 7))).
  reflexivity.
Defined.

(** ** When [updateSetup] skips the setup *)

(** C7, as stated, fails: with the force flag set and a circuit that
    compiles, a [MakeSetup] that returns an error makes [updateSetup]
    return that error without writing any asset; and when the circuit
    does not compile the setup is not even run. *)
Lemma updateSetup_setup_error_writes_nothing :
  let env : Collaborators unit unit unit :=
    {| builder_Compile := Returned ();
       cfg_PathForSetup := fun c => c;
       filepath_Join := fun a b => String.append a b;
       config_ManifestFileName := "manifest.json";
       circuits_ReadSetupManifest := fun _ => Failed (External "no manifest");
       circuits_CircuitDigest := fun _ => Returned "0xabc";
       circuits_MakeSetup := fun _ _ _ => Failed (External "srs too small");
       setup_WriteTo := fun _ _ => None |} in
  let failing : Collaborators unit unit unit :=
    {| builder_Compile := Failed (External "unsatisfiable");
       cfg_PathForSetup := fun c => c;
       filepath_Join := fun a b => String.append a b;
       config_ManifestFileName := "manifest.json";
       circuits_ReadSetupManifest := fun _ => Failed (External "no manifest");
       circuits_CircuitDigest := fun _ => Returned "0xabc";
       circuits_MakeSetup := fun _ _ _ => Returned ();
       setup_WriteTo := fun _ _ => None |} in
  updateSetup true env "execution" None
    = (Some (FailedToSetup "execution" (External "srs too small")),
       [Compiled; RanMakeSetup "execution" ∅]) /\
  wroteAssets (snd (updateSetup true env "execution" None))
    = false /\
  ranSetup (snd (updateSetup true failing "execution" None))
    = false.
Proof. repeat split. Qed.

(** C7, amended. Once the circuit has compiled: if the force flag is
    false and the manifest is readable and records the digest of the
    compiled constraint system, [updateSetup] returns nil without running
    [MakeSetup] and without writing assets. In every other case (force
    set, no readable manifest, or checksum mismatch) it runs [MakeSetup],
    and writes the assets, returning the outcome of the write, when
    [MakeSetup] succeeds. An error of the compilation, of the digest
    computation or of [MakeSetup] is returned without writing anything
    (and, for the first two, without running [MakeSetup]). *)
Theorem updateSetup_spec {Ccs Assets Any : Type} (fForce : bool)
    (env : Collaborators Ccs Assets Any) (circuit : string)
    (extraFlags : option (gmap string Any)) :
  let r := updateSetup fForce env circuit extraFlags in
  (forall err, builder_Compile env = Failed err ->
     fst r = Some (FailedToCompile circuit err) /\
     ranSetup (snd r) = false /\ wroteAssets (snd r) = false) /\
  (forall ccs, builder_Compile env = Returned ccs ->
     let skip := negb fForce && manifestMatches env circuit ccs in
     let stuck := negb fForce && digestFails env circuit ccs in
     (skip = true ->
        fst r = None /\
        ranSetup (snd r) = false /\ wroteAssets (snd r) = false) /\
     (stuck = true ->
        (exists err, fst r = Some (FailedToDigest circuit err)) /\
        ranSetup (snd r) = false /\ wroteAssets (snd r) = false) /\
     (skip = false -> stuck = false ->
        ranSetup (snd r) = true /\
        match circuits_MakeSetup env circuit ccs (flagsOf extraFlags) with
        | Returned setup =>
            wroteAssets (snd r) = true /\
            fst r = setup_WriteTo env setup (cfg_PathForSetup env circuit)
        | Failed err =>
            wroteAssets (snd r) = false /\
            fst r = Some (FailedToSetup circuit err)
        end)).
Proof.
  intros r. subst r. split.
  { intros err Hc. unfold updateSetup. rewrite Hc. cbn. auto. }
  intros ccs Hc skip stuck. subst skip stuck.
  unfold updateSetup, manifestMatches, digestFails, manifestPathOf, flagsOf.
  rewrite Hc.
  destruct fForce; cbn [negb andb].
  - split; [discriminate|]. split; [discriminate|]. intros _ _.
    destruct (circuits_MakeSetup env circuit ccs _); cbn; auto.
  - destruct (circuits_ReadSetupManifest env _) as [m|e].
    + destruct (circuits_CircuitDigest env ccs) as [d|e].
      * destruct (String.eqb (Circuit (checksums m)) d).
        -- split; [cbn; auto|]. split; discriminate.
        -- split; [discriminate|]. split; [discriminate|]. intros _ _.
           destruct (circuits_MakeSetup env circuit ccs _); cbn; auto.
      * split; [discriminate|]. split; [|discriminate]. intros _.
        cbn. split; [exists e; reflexivity|]. auto.
    + split; [discriminate|]. split; [discriminate|]. intros _ _.
      destruct (circuits_MakeSetup env circuit ccs _); cbn; auto.
Qed.

Lemma updateSetup_spec_witness :
  let env : Collaborators unit unit unit :=
    {| builder_Compile := Returned ();
       cfg_PathForSetup := fun c => c;
       filepath_Join := fun a b => String.append a b;
       config_ManifestFileName := "manifest.json";
       circuits_ReadSetupManifest :=
         fun _ => Returned {| checksums := {| Circuit := "0xabc" |} |};
       circuits_CircuitDigest := fun _ => Returned "0xabc";
       circuits_MakeSetup := fun _ _ _ => Returned ();
       setup_WriteTo := fun _ _ => None |} in
  fst (updateSetup false env "execution" None) = None /\
  ranSetup (snd (updateSetup false env "execution" None))
    = false /\
  wroteAssets (snd (updateSetup false env "execution" None))
    = false.
Proof.
  intros env.
  destruct (updateSetup_spec false env "execution" None) as [_ Hok].
  destruct (Hok () eq_refl) as (Hskip & _ & _).
  apply Hskip. reflexivity.
Defined.

(** ** Sample runs *)

Example IsPowerOfTwo_runs :
  Utils.IsPowerOfTwo 1 = true /\ Utils.IsPowerOfTwo 4096 = true /\
  Utils.IsPowerOfTwo 0 = false /\ Utils.IsPowerOfTwo 12 = false /\
  Utils.IsPowerOfTwo (-8) = false /\ Utils.IsPowerOfTwo min_int = false.
Proof. repeat split. Qed.

Example NextPowerOfTwo_runs :
  Utils.NextPowerOfTwo 0 = Ok 0 /\ Utils.NextPowerOfTwo 1 = Ok 1 /\
  Utils.NextPowerOfTwo 5 = Ok 8 /\ Utils.NextPowerOfTwo 8 = Ok 8 /\
  Utils.NextPowerOfTwo (2 ^ 62 - 1) = Ok (2 ^ 62) /\
  Utils.NextPowerOfTwo (2 ^ 62) = Ok (2 ^ 62) /\
  Utils.NextPowerOfTwo (2 ^ 62 + 1) = Panic.
Proof. repeat split. Qed.

Example DivCeil_runs :
  Utils.DivCeil 9 4 = Ok 3 /\ Utils.DivCeil 8 4 = Ok 2 /\
  Utils.DivCeil 0 28 = Ok 0 /\ Utils.DivCeil 1 0 = Panic.
Proof. repeat split. Qed.

Example LeftPadded_runs :
  LeftPadded [1; 2] 0 4
    = Ok (SvPaddedCircularWindow (mkPaddedCircularWindow [1; 2] 0 2 4)) /\
  RightPadded [1; 2] 0 4
    = Ok (SvPaddedCircularWindow (mkPaddedCircularWindow [1; 2] 0 0 4)) /\
  LeftPadded [1; 2] 0 2 = Ok (SvRegular [1; 2]) /\
  LeftPadded [] 0 3 = Ok (SvConstant (mkConstant 0 3)) /\
  LeftPadded [1; 2] 0 1 = Panic /\
  IntoRegVec 0 (SvPaddedCircularWindow (mkPaddedCircularWindow [1; 2] 0 2 4))
    = Ok [0; 0; 1; 2].
Proof. repeat split. Qed.

Example fullSettings_runs :
  (s ← fullSettings (Some (sampleLimits 100));
   Ok (ecdsa_NbCircuitInstances (Ecdsa s), NbInputInstances (Ecadd s),
       NbCircuitInstances (Ecmul s), NbG2MembershipCircuits (Ecpair s)))
  = Ok (50, 4, 17, 17) /\
  fullSettings None = Panic.
Proof. repeat split. Qed.

(** * Further properties of the utilities *)

(** ** Integer division helpers *)

Lemma quot_is_int a b : is_int a -> b <> 0 -> (a <> min_int \/ b <> -1) ->
  is_int (Z.quot a b).
Proof.
  unfold is_int, min_int, max_int. intros Ha Hb Hov.
  pose proof (Z.quot_rem' a b) as Hq.
  pose proof (Z.rem_bound_abs a b Hb) as Hr.
  assert (Habs : Z.abs (Z.quot a b) * Z.abs b <= Z.abs a).
  { rewrite <- Z.abs_mul. rewrite Z.mul_comm.
    pose proof (Z.rem_sign_mul a b Hb) as Hs.
    pose proof (Z.mul_quot_le a b) as Hle.
    destruct (Z.le_ge_cases 0 a) as [Hpos|Hneg].
    - specialize (Hle Hpos Hb). rewrite (Z.abs_eq a) by lia.
      rewrite Z.abs_eq by lia. lia.
    - pose proof (Z.mul_quot_ge a b ltac:(lia) Hb) as Hge.
      rewrite (Z.abs_neq a) by lia. rewrite Z.abs_neq by lia. lia. }
  destruct (Z.eq_dec (Z.abs b) 1) as [Hb1|Hb1].
  - destruct (Z.eq_dec b 1) as [->|Hbm].
    + rewrite Z.quot_1_r. lia.
    + assert (b = -1) by lia. subst b.
      change (-1) with (Z.opp 1).
      rewrite Z.quot_opp_r, Z.quot_1_r by lia. lia.
  - assert (2 <= Z.abs b) by lia.
    assert (Z.abs (Z.quot a b) * 2 <= Z.abs a) by nia.
    lia.
Qed.

Lemma DivCeil_bounds (a b : Z) :
  is_int a -> 0 < b <= max_int ->
  exists q, Utils.DivCeil a b = Ok q /\ b * (q - 1) < a <= b * q.
Proof.
  intros Ha Hb.
  assert (Hq : is_int (Z.quot a b)) by (apply quot_is_int; [assumption|lia|lia]).
  unfold is_int, min_int, max_int in *.
  unfold Utils.DivCeil.
  destruct (b =? 0) eqn:E0; [apply Z.eqb_eq in E0; lia|].
  rewrite (wrap_small (Z.quot a b)) by (unfold is_int, min_int, max_int; lia).
  pose proof (Z.quot_rem' a b) as Hdiv.
  assert (Hr : - b < Z.rem a b < b).
  { destruct (Z.lt_ge_cases a 0) as [Hneg|Hpos].
    - pose proof (Z.rem_bound_pos_neg a b ltac:(lia) ltac:(lia)). lia.
    - pose proof (Z.rem_bound_pos_pos a b ltac:(lia) ltac:(lia)). lia. }
  assert (Hsign : (0 <= a -> 0 <= Z.rem a b) /\ (a <= 0 -> Z.rem a b <= 0)).
  { split; intros H.
    - pose proof (Z.rem_bound_pos_pos a b ltac:(lia) H). lia.
    - pose proof (Z.rem_bound_pos_neg a b ltac:(lia) H). lia. }
  rewrite (wrap_small (b * Z.quot a b))
    by (unfold is_int, min_int, max_int; lia).
  destruct (b * Z.quot a b <? a) eqn:E.
  - apply Z.ltb_lt in E.
    assert (0 < Z.rem a b) by lia.
    assert (0 < a) by lia.
    assert (0 <= Z.quot a b) by (apply Z.quot_pos; lia).
    assert (Z.quot a b <= b * Z.quot a b) by nia.
    exists (Z.quot a b + 1).
    rewrite wrap_small by (unfold is_int, min_int, max_int; lia).
    split; [reflexivity|]. lia.
  - apply Z.ltb_ge in E. exists (Z.quot a b). split; [reflexivity|]. lia.
Qed.

(** X1. For a divisor b > 0, [DivCeil a b] is the ceiling of a/b: the
    least q with a <= b*q; a zero divisor panics. *)
Theorem DivCeil_ceiling (a b : Z) :
  is_int a -> 0 < b <= max_int ->
  (exists q, Utils.DivCeil a b = Ok q /\ b * (q - 1) < a <= b * q) /\
  Utils.DivCeil a 0 = Panic.
Proof.
  intros Ha Hb. split; [now apply DivCeil_bounds|reflexivity].
Qed.

Lemma DivCeil_ceiling_witness :
  (exists q, Utils.DivCeil 9 4 = Ok q /\ 4 * (q - 1) < 9 <= 4 * q) /\
  Utils.DivCeil 9 0 = Panic.
Proof.
  apply (DivCeil_ceiling 9 4); unfold is_int, min_int, max_int; lia.
Defined.

(** X2. Away from the overflowing pair (min int, -1), [DivExact a b]
    returns q exactly when b is not zero and a = q*b; so it panics on a
    zero divisor (also for a = 0) and whenever b does not divide a. *)
Theorem DivExact_exact (a b q : Z) :
  is_int a -> is_int b -> (a <> min_int \/ b <> -1) ->
  (Utils.DivExact a b = Ok q <-> b <> 0 /\ a = q * b).
Proof.
  intros Ha Hb Hov. unfold Utils.DivExact.
  destruct (b =? 0) eqn:E0.
  { apply Z.eqb_eq in E0. split; [discriminate|lia]. }
  apply Z.eqb_neq in E0.
  pose proof (quot_is_int a b Ha E0 Hov) as Hq.
  rewrite (wrap_small (Z.quot a b)) by exact Hq.
  pose proof (Z.quot_rem' a b) as Hdiv.
  assert (Hprod : is_int (Z.quot a b * b)).
  { unfold is_int, min_int, max_int in *.
    destruct (Z.le_ge_cases 0 a) as [Hpos|Hneg].
    - pose proof (Z.mul_quot_le a b Hpos E0).
      pose proof (Z.rem_nonneg a b E0 Hpos). lia.
    - pose proof (Z.mul_quot_ge a b Hneg E0).
      pose proof (Z.rem_nonpos a b E0 Hneg). lia. }
  rewrite wrap_small by exact Hprod.
  destruct (Z.quot a b * b =? a) eqn:E; cbn [negb].
  - apply Z.eqb_eq in E. split.
    + intros [= <-]. split; [exact E0|lia].
    + intros [_ ->]. now rewrite Z.quot_mul.
  - apply Z.eqb_neq in E. split; [discriminate|].
    intros [_ Hmul]. exfalso. apply E. rewrite Hmul at 1.
    rewrite Z.quot_mul by exact E0. lia.
Qed.

Lemma DivExact_exact_witness :
  Utils.DivExact 12 (-4) = Ok (-3) <-> -4 <> 0 /\ 12 = -3 * -4.
Proof.
  apply (DivExact_exact 12 (-4) (-3)); unfold is_int, min_int, max_int; lia.
Defined.

(** X3. For a modulus n > 0, [PositiveMod a n] is the representative of a
    in [0, n); a zero modulus panics. *)
Theorem PositiveMod_euclid (a n : Z) :
  0 < n <= max_int ->
  (exists r k, Utils.PositiveMod a n = Ok r /\ 0 <= r < n /\ a = k * n + r) /\
  Utils.PositiveMod a 0 = Panic.
Proof.
  intros Hn. split; [|reflexivity].
  exists (a mod n), (a / n). rewrite PositiveMod_mod by exact Hn.
  split; [reflexivity|]. split.
  - apply Z.mod_pos_bound. lia.
  - rewrite Z.mul_comm. apply Z.div_mod. lia.
Qed.

Lemma PositiveMod_euclid_witness :
  (exists r k, Utils.PositiveMod (-7) 3 = Ok r /\ 0 <= r < 3 /\
               -7 = k * 3 + r) /\
  Utils.PositiveMod (-7) 0 = Panic.
Proof. apply (PositiveMod_euclid (-7) 3). unfold max_int. lia. Defined.

(** ** Logarithms *)

Lemma Log2Floor_loop_log2 i res :
  0 <= res -> res + Z.log2 i <= max_int ->
  Utils.Log2Floor_loop i res = res + Z.log2 i.
Proof.
  funelim (Utils.Log2Floor_loop i res); intros Hres Hmax.
  - (* one more halving *)
    assert (Hlog : Z.log2 (Z.shiftr i 1) = Z.log2 i - 1).
    { rewrite Z.log2_shiftr by lia.
      assert (1 <= Z.log2 i) by (apply Z.log2_le_pow2; [lia|cbn; lia]).
      lia. }
    assert (Hw : wrap (res + 1) = res + 1).
    { apply wrap_small. pose proof (Z.log2_nonneg i).
      assert (1 <= Z.log2 i) by (apply Z.log2_le_pow2; [lia|cbn; lia]).
      unfold is_int, min_int, max_int in *. lia. }
    rewrite Hw in *.
    match goal with
    | IH : _ -> _ -> Utils.Log2Floor_loop _ _ = _ |- _ => rewrite IH
    end; lia.
  - (* the loop exits *)
    assert (Hlog : Z.log2 i = 0).
    { destruct (Z.eq_dec i 1) as [->|Hne]; [reflexivity|].
      apply Z.log2_nonpos. lia. }
    lia.
Qed.

Lemma Log2Floor_log2 a : is_int a -> Utils.Log2Floor a = Z.log2 a.
Proof.
  intros Ha. unfold Utils.Log2Floor.
  rewrite Log2Floor_loop_log2; [lia|lia|].
  unfold is_int, min_int, max_int in *.
  destruct (Z.le_gt_cases a 0) as [Hle|Hgt].
  - rewrite Z.log2_nonpos by lia. lia.
  - assert (Z.log2 a < 63) by (apply Z.log2_lt_pow2; lia). lia.
Qed.

(** The exponent of the least power of two that is at least [a]. *)
Lemma Log2Ceil_bounds a :
  1 <= a <= max_int ->
  0 <= Utils.Log2Ceil a <= 63 /\
  a <= 2 ^ Utils.Log2Ceil a /\
  (0 < Utils.Log2Ceil a -> 2 ^ (Utils.Log2Ceil a - 1) < a).
Proof.
  intros Ha. unfold Utils.Log2Ceil.
  rewrite Log2Floor_log2 by (unfold is_int, min_int, max_int in *; lia).
  unfold max_int in Ha.
  pose proof (Z.log2_nonneg a) as Hnn.
  assert (Hlt : Z.log2 a < 63) by (apply Z.log2_lt_pow2; lia).
  destruct (Z.log2_spec a ltac:(lia)) as [Hlo Hhi].
  replace (Z.succ (Z.log2 a)) with (Z.log2 a + 1) in Hhi by lia.
  rewrite Z.shiftl_1_l.
  assert (Hp : 2 ^ Z.log2 a <= 2 ^ 62) by (apply Z.pow_le_mono_r; lia).
  rewrite (wrap_small (2 ^ Z.log2 a))
    by (unfold is_int, min_int, max_int; lia).
  destruct (a =? 2 ^ Z.log2 a) eqn:E; cbn [negb].
  - apply Z.eqb_eq in E. split; [lia|]. split; [lia|]. intros Hpos.
    rewrite E at 2. apply Z.pow_lt_mono_r; lia.
  - apply Z.eqb_neq in E.
    rewrite wrap_small by (unfold is_int, min_int, max_int; lia).
    split; [lia|]. split; [lia|]. intros _.
    replace (Z.log2 a + 1 - 1) with (Z.log2 a) by lia. lia.
Qed.

(** X4. [Log2Floor a] is the floor of the binary logarithm for a >= 1
    (2^r <= a < 2^(r+1)), and 0 for every a <= 1, negative ones
    included. *)
Theorem Log2Floor_floor (a : Z) :
  is_int a ->
  (1 <= a ->
     2 ^ Utils.Log2Floor a <= a < 2 ^ (Utils.Log2Floor a + 1)) /\
  (a <= 1 -> Utils.Log2Floor a = 0) /\
  0 <= Utils.Log2Floor a <= 62.
Proof.
  intros Ha. rewrite Log2Floor_log2 by exact Ha.
  unfold is_int, min_int, max_int in Ha.
  split; [|split].
  - intros H1. destruct (Z.log2_spec a ltac:(lia)) as [Hlo Hhi].
    replace (Z.succ (Z.log2 a)) with (Z.log2 a + 1) in Hhi by lia. lia.
  - intros H1. destruct (Z.eq_dec a 1) as [->|Hne]; [reflexivity|].
    apply Z.log2_nonpos. lia.
  - pose proof (Z.log2_nonneg a).
    destruct (Z.le_gt_cases a 0) as [Hle|Hgt].
    + rewrite Z.log2_nonpos by lia. lia.
    + assert (Z.log2 a < 63) by (apply Z.log2_lt_pow2; lia). lia.
Qed.

Lemma Log2Floor_floor_witness :
  (1 <= 10 -> 2 ^ Utils.Log2Floor 10 <= 10 < 2 ^ (Utils.Log2Floor 10 + 1)) /\
  (10 <= 1 -> Utils.Log2Floor 10 = 0) /\
  0 <= Utils.Log2Floor 10 <= 62.
Proof.
  apply (Log2Floor_floor 10). unfold is_int, min_int, max_int. lia.
Defined.

(** X5. For 1 <= a, [Log2Ceil a] is the least r with a <= 2^r; for every
    a <= 0 it is 1. *)
Theorem Log2Ceil_ceiling (a : Z) :
  is_int a ->
  (1 <= a ->
     a <= 2 ^ Utils.Log2Ceil a /\
     forall r, 0 <= r -> a <= 2 ^ r -> Utils.Log2Ceil a <= r) /\
  (a <= 0 -> Utils.Log2Ceil a = 1).
Proof.
  intros Ha. split.
  - intros H1.
    destruct (Log2Ceil_bounds a) as (Hr & Hle & Hlt);
      [unfold is_int in Ha; lia|].
    split; [exact Hle|]. intros r Hr0 Har.
    destruct (Z.le_gt_cases (Utils.Log2Ceil a) r) as [|Hgt]; [assumption|].
    exfalso. specialize (Hlt ltac:(lia)).
    assert (2 ^ r <= 2 ^ (Utils.Log2Ceil a - 1))
      by (apply Z.pow_le_mono_r; lia).
    lia.
  - intros H0. unfold Utils.Log2Ceil.
    rewrite Log2Floor_log2 by exact Ha.
    rewrite Z.log2_nonpos by lia.
    change (wrap (Z.shiftl 1 0)) with 1. change (wrap (0 + 1)) with 1.
    destruct (a =? 1) eqn:E; [apply Z.eqb_eq in E; lia|reflexivity].
Qed.

Lemma Log2Ceil_ceiling_witness :
  (1 <= 10 ->
     10 <= 2 ^ Utils.Log2Ceil 10 /\
     forall r, 0 <= r -> 10 <= 2 ^ r -> Utils.Log2Ceil 10 <= r) /\
  (10 <= 0 -> Utils.Log2Ceil 10 = 1).
Proof.
  apply (Log2Ceil_ceiling 10). unfold is_int, min_int, max_int. lia.
Defined.

(** X6. On 1 <= a <= 2^62, [NextPowerOfTwo] and [Log2Ceil] agree:
    NextPowerOfTwo(a) = 2^Log2Ceil(a). *)
Theorem NextPowerOfTwo_Log2Ceil (a : Z) :
  1 <= a <= 2 ^ 62 ->
  Utils.NextPowerOfTwo a = Ok (2 ^ Utils.Log2Ceil a).
Proof.
  intros Ha.
  destruct (NextPowerOfTwo_pos a ltac:(lia)) as (k & Hk & E & Hle & Hlt).
  destruct (Log2Ceil_bounds a) as (Hr & Hle' & Hlt'); [unfold max_int; lia|].
  rewrite E. f_equal. f_equal.
  assert (H1 : k <= Utils.Log2Ceil a).
  { destruct (Z.le_gt_cases k (Utils.Log2Ceil a)) as [|Hgt]; [assumption|].
    exfalso. specialize (Hlt ltac:(lia)).
    assert (2 ^ Utils.Log2Ceil a <= 2 ^ (k - 1))
      by (apply Z.pow_le_mono_r; lia).
    lia. }
  assert (H2 : Utils.Log2Ceil a <= k).
  { destruct (Z.le_gt_cases (Utils.Log2Ceil a) k) as [|Hgt]; [assumption|].
    exfalso. specialize (Hlt' ltac:(lia)).
    assert (2 ^ k <= 2 ^ (Utils.Log2Ceil a - 1))
      by (apply Z.pow_le_mono_r; lia).
    lia. }
  lia.
Qed.

Lemma NextPowerOfTwo_Log2Ceil_witness :
  Utils.NextPowerOfTwo 1000 = Ok (2 ^ Utils.Log2Ceil 1000).
Proof. apply (NextPowerOfTwo_Log2Ceil 1000). lia. Defined.

(** ** The subtractive greatest common divisor *)

(** X7. For positive a and b the loop of [GCD] ends within a + b tests
    and returns the greatest common divisor. *)
Theorem GCD_positive (fuel : nat) (a b : Z) :
  0 < a <= max_int -> 0 < b <= max_int ->
  (Z.to_nat (a + b) <= fuel)%nat ->
  Utils.GCD fuel a b = Some (Z.gcd a b).
Proof.
  revert a b. induction fuel as [|fuel IH]; intros a b Ha Hb Hf; [lia|].
  unfold max_int in *. cbn [Utils.GCD].
  destruct (a =? b) eqn:E; cbn [negb].
  - apply Z.eqb_eq in E. subst b. rewrite Z.gcd_diag.
    now rewrite Z.abs_eq by lia.
  - apply Z.eqb_neq in E. destruct (a >? b) eqn:E'.
    + apply Z.gtb_gt in E'.
      rewrite wrap_small by (unfold is_int, min_int, max_int; lia).
      rewrite IH by (unfold max_int; lia).
      f_equal. rewrite (Z.gcd_comm (a - b)), Z.gcd_sub_diag_r.
      apply Z.gcd_comm.
    + rewrite Z.gtb_ltb in E'. apply Z.ltb_ge in E'.
      rewrite wrap_small by (unfold is_int, min_int, max_int; lia).
      rewrite IH by (unfold max_int; lia).
      f_equal. apply Z.gcd_sub_diag_r.
Qed.

Lemma GCD_positive_witness : Utils.GCD 30 12 18 = Some (Z.gcd 12 18).
Proof. apply (GCD_positive 30 12 18); unfold max_int; lia. Defined.

(** X8. When exactly one argument is zero and the other is positive, the
    loop of [GCD] never ends: however many tests are allowed, it has not
    returned. *)
Theorem GCD_zero_diverges (fuel : nat) (a b : Z) :
  (a = 0 /\ 0 < b <= max_int) \/ (b = 0 /\ 0 < a <= max_int) ->
  Utils.GCD fuel a b = None.
Proof.
  intros H. induction fuel as [|fuel IH]; [reflexivity|].
  cbn [Utils.GCD]. destruct H as [[-> Hb]|[-> Ha]].
  - destruct (0 =? b) eqn:E; [apply Z.eqb_eq in E; lia|]. cbn [negb].
    destruct (0 >? b) eqn:E'; [apply Z.gtb_gt in E'; lia|].
    rewrite Z.sub_0_r.
    rewrite wrap_small by (unfold is_int, min_int, max_int in *; lia).
    apply IH.
  - destruct (a =? 0) eqn:E; [apply Z.eqb_eq in E; lia|]. cbn [negb].
    destruct (a >? 0) eqn:E'; [|rewrite Z.gtb_ltb in E'; apply Z.ltb_ge in E'; lia].
    rewrite Z.sub_0_r.
    rewrite wrap_small by (unfold is_int, min_int, max_int in *; lia).
    apply IH.
Qed.

Lemma GCD_zero_diverges_witness : Utils.GCD 1000 0 5 = None.
Proof. apply (GCD_zero_diverges 1000 0 5). left. unfold max_int. lia. Defined.

(** ** Slices *)

Section SliceFacts.

Context {T : Type}.
Implicit Types (s res : list T) (ts : list (list T)).

Lemma Join_from res ts :
  fold_left (fun res t => res ++ t) ts res = res ++ concat ts.
Proof.
  revert res. induction ts as [|t ts IH]; intros res; cbn.
  - now rewrite app_nil_r.
  - rewrite IH. now rewrite app_assoc.
Qed.

Lemma RightPad_loop_pads res n (padWith : T) :
  Utils.RightPad_loop res n padWith
  = res ++ replicate (Z.to_nat (n - Z.of_nat (length res))) padWith.
Proof.
  funelim (Utils.RightPad_loop res n padWith).
  - match goal with
    | IH : Utils.RightPad_loop _ _ _ = _ ++ replicate _ _ |- _ => rewrite IH
    end.
    rewrite length_app. cbn [length].
    replace (Z.to_nat (n - Z.of_nat (length res)))
      with (S (Z.to_nat (n - Z.of_nat (length res + 1)))) by lia.
    cbn [replicate]. now rewrite <- app_assoc.
  - replace (Z.to_nat (n - Z.of_nat (length res))) with 0%nat by lia.
    cbn. now rewrite app_nil_r.
Qed.

Lemma RepeatSlice_loop_repeats s res i n :
  Utils.RepeatSlice_loop s res i n
  = res ++ concat (replicate (Z.to_nat (n - i)) s).
Proof.
  funelim (Utils.RepeatSlice_loop s res i n).
  - match goal with
    | IH : Utils.RepeatSlice_loop _ _ _ _ = _ ++ concat _ |- _ => rewrite IH
    end.
    replace (Z.to_nat (n - i)) with (S (Z.to_nat (n - (i + 1)))) by lia.
    cbn [replicate concat]. now rewrite <- app_assoc.
  - replace (Z.to_nat (n - i)) with 0%nat by lia.
    cbn. now rewrite app_nil_r.
Qed.

Lemma length_concat_replicate k s :
  length (concat (replicate k s)) = (k * length s)%nat.
Proof.
  induction k as [|k IH]; [reflexivity|].
  cbn [replicate concat]. rewrite length_app, IH. lia.
Qed.

End SliceFacts.

(** X9. [Join] returns the elements of its arguments in order: it is the
    concatenation, so joining two argument lists joins their results and
    the length is the sum of the lengths. *)
Theorem Join_concat {T : Type} (ts1 ts2 : list (list T)) :
  Utils.Join (ts1 ++ ts2) = Utils.Join ts1 ++ Utils.Join ts2 /\
  Utils.Join ts1 = concat ts1 /\
  length (Utils.Join ts1) = list_sum (map length ts1).
Proof.
  unfold Utils.Join. rewrite !Join_from. cbn [app].
  split; [apply concat_app|]. split; [reflexivity|].
  induction ts1 as [|t ts IH]; [reflexivity|].
  cbn. rewrite length_app. rewrite IH. reflexivity.
Qed.

(** X10. For n >= 0, [RightPad s n padWith] is s followed by
    max(0, n - len(s)) copies of padWith: it never truncates and never
    panics (a slice longer than n comes back unchanged); a negative n
    panics. *)
Theorem RightPad_pads {T : Type} (s : list T) (n : Z) (padWith : T) :
  (0 <= n ->
     Utils.RightPad s n padWith
     = Ok (s ++ replicate (Z.to_nat (n - Z.of_nat (length s))) padWith) /\
     (n <= Z.of_nat (length s) -> Utils.RightPad s n padWith = Ok s)) /\
  (n < 0 -> Utils.RightPad s n padWith = Panic).
Proof.
  unfold Utils.RightPad. split.
  - intros Hn. destruct (n <? 0) eqn:E; [apply Z.ltb_lt in E; lia|].
    cbn [app]. rewrite RightPad_loop_pads. split; [reflexivity|].
    intros Hle. replace (Z.to_nat (n - Z.of_nat (length s))) with 0%nat by lia.
    cbn. now rewrite app_nil_r.
  - intros Hn. destruct (n <? 0) eqn:E; [reflexivity|].
    apply Z.ltb_ge in E. lia.
Qed.

Lemma RightPad_pads_witness :
  Utils.RightPad [1; 2] 4 0 = Ok [1; 2; 0; 0] /\
  Utils.RightPad [1; 2; 3] 2 0 = Ok [1; 2; 3].
Proof.
  split.
  - destruct (RightPad_pads [1; 2] 4 0) as [H _].
    destruct (H ltac:(lia)) as [H1 _]. exact H1.
  - destruct (RightPad_pads [1; 2; 3] 2 0) as [H _].
    destruct (H ltac:(lia)) as [_ H2]. apply H2. cbn. lia.
Defined.

(** X11. For n >= 0 with n*len(s) an [int], [RepeatSlice s n] is n copies
    of s in a row, of length n*len(s); a negative n panics unless s is
    empty, in which case the result is empty. *)
Theorem RepeatSlice_repeats {T : Type} (s : list T) (n : Z) :
  is_int (n * Z.of_nat (length s)) ->
  (0 <= n ->
     exists res, Utils.RepeatSlice s n = Ok res /\
                 res = concat (replicate (Z.to_nat n) s) /\
                 Z.of_nat (length res) = n * Z.of_nat (length s)) /\
  (n < 0 -> s <> [] -> Utils.RepeatSlice s n = Panic) /\
  (n < 0 -> s = [] -> Utils.RepeatSlice s n = Ok []).
Proof.
  intros Hint. unfold Utils.RepeatSlice. rewrite wrap_small by exact Hint.
  rewrite RepeatSlice_loop_repeats. cbn [app]. rewrite Z.sub_0_r.
  split; [|split].
  - intros Hn.
    destruct (n * Z.of_nat (length s) <? 0) eqn:E; [apply Z.ltb_lt in E; nia|].
    eexists. split; [reflexivity|]. split; [reflexivity|].
    rewrite length_concat_replicate. nia.
  - intros Hn Hs.
    assert (0 < length s)%nat by (destruct s; [congruence|cbn; lia]).
    destruct (n * Z.of_nat (length s) <? 0) eqn:E; [reflexivity|].
    apply Z.ltb_ge in E. nia.
  - intros Hn ->. cbn [length]. rewrite Z.mul_0_r. cbn.
    now replace (Z.to_nat n) with 0%nat by lia.
Qed.

Lemma RepeatSlice_repeats_witness :
  exists res, Utils.RepeatSlice [1; 2] 3 = Ok res /\
              res = concat (replicate (Z.to_nat 3) [1; 2]) /\
              Z.of_nat (length res) = 3 * Z.of_nat (length [1; 2]).
Proof.
  destruct (RepeatSlice_repeats [1; 2] 3) as [H _].
  - unfold is_int, min_int, max_int. cbn. lia.
  - apply H. lia.
Defined.

Section AllEqual.

Context {T U : Type} `{EqDecision U}.

Lemma AllReturnEqual_loop_spec (fs : T -> U) (arg0 : T) (first : U)
    (rest : list T) :
  fst (Utils.AllReturnEqual_loop fs arg0 first rest) = first /\
  (snd (Utils.AllReturnEqual_loop fs arg0 first rest) = None <->
     Forall (fun x => fs x = first) rest) /\
  (forall m, snd (Utils.AllReturnEqual_loop fs arg0 first rest) = Some m ->
     exists before after,
       rest = before ++ Utils.mismatch_arg m :: after /\
       Forall (fun x => fs x = first) before /\
       fs (Utils.mismatch_arg m) <> first /\
       Utils.mismatch_curr m = fs (Utils.mismatch_arg m) /\
       Utils.mismatch_first m = first /\
       Utils.mismatch_first_arg m = arg0).
Proof.
  induction rest as [|x rest IH]; cbn [Utils.AllReturnEqual_loop].
  - cbn. split; [reflexivity|]. split; [split; auto|]. discriminate.
  - destruct (bool_decide (first = fs x)) eqn:E; cbn [negb].
    + apply bool_decide_eq_true in E. destruct IH as (IH1 & IH2 & IH3).
      split; [exact IH1|]. split.
      * rewrite IH2. split; intros H.
        -- constructor; [now symmetry|exact H].
        -- now inversion H.
      * intros m Hm. destruct (IH3 m Hm) as (b & a & -> & Hb & Hrest).
        exists (x :: b), a. split; [reflexivity|].
        split; [constructor; [now symmetry|exact Hb]|exact Hrest].
    + apply bool_decide_eq_false in E. cbn.
      split; [reflexivity|]. split.
      * split; [discriminate|]. intros H. inversion H; subst. congruence.
      * intros m [= <-]. cbn. exists [], rest.
        repeat split; auto; congruence.
Qed.

End AllEqual.

(** X12. On a non-empty list [AllReturnEqual] returns the result for the
    first argument, with a nil error exactly when every argument gives
    that result; otherwise the error reports the leftmost argument that
    disagrees. On an empty list it panics. *)
Theorem AllReturnEqual_spec {T U : Type} `{EqDecision U} (fs : T -> U)
    (arg0 : T) (rest : list T) :
  exists err,
    Utils.AllReturnEqual fs (arg0 :: rest) = Ok (fs arg0, err) /\
    (err = None <-> Forall (fun x => fs x = fs arg0) (arg0 :: rest)) /\
    (forall m, err = Some m ->
       exists before after,
         rest = before ++ Utils.mismatch_arg m :: after /\
         Forall (fun x => fs x = fs arg0) before /\
         fs (Utils.mismatch_arg m) <> fs arg0) /\
    Utils.AllReturnEqual fs [] = Panic.
Proof.
  destruct (AllReturnEqual_loop_spec fs arg0 (fs arg0) rest)
    as (H1 & H2 & H3).
  exists (snd (Utils.AllReturnEqual_loop fs arg0 (fs arg0) rest)).
  split.
  - cbn [Utils.AllReturnEqual]. f_equal.
    rewrite <- H1 at 2. now destruct (Utils.AllReturnEqual_loop _ _ _ _).
  - split.
    + rewrite H2. split; intros H.
      * constructor; [reflexivity|exact H].
      * now inversion H.
    + split; [|reflexivity]. intros m Hm.
      destruct (H3 m Hm) as (b & a & Hr & Hb & Hne & _).
      exists b, a. auto.
Qed.

(** * Further properties of the smart-vectors *)

Section PaddedFacts.

Context {F : Type}.
Variable field_Zero : F.
Implicit Types (v : list F) (padding : F) (s : @SmartVector F).

(** What the two padding functions build, case by case. *)
Lemma Padded_cases v padding n :
  len v <= n -> 0 < n <= max_int ->
  (len v = n /\
   LeftPadded v padding n = Ok (SvRegular v) /\
   RightPadded v padding n = Ok (SvRegular v)) \/
  (v = [] /\
   LeftPadded v padding n = Ok (SvConstant (mkConstant padding n)) /\
   RightPadded v padding n = Ok (SvConstant (mkConstant padding n))) \/
  (0 < len v < n /\
   LeftPadded v padding n
   = Ok (SvPaddedCircularWindow
           (mkPaddedCircularWindow v padding (n - len v) n)) /\
   RightPadded v padding n
   = Ok (SvPaddedCircularWindow (mkPaddedCircularWindow v padding 0 n))).
Proof.
  intros Hv Hn. pose proof (len_nonneg v) as Hnn.
  destruct (Z.eq_dec (len v) n) as [Heq|Hne];
    [|destruct (Z.eq_dec (len v) 0) as [H0|Hpos]].
  - left. subst n.
    rewrite LeftPadded_full, RightPadded_full, NewRegular_ok by lia. auto.
  - right. left.
    assert (Hnil : v = []).
    { destruct v; [reflexivity|]. unfold len in H0. cbn in H0. lia. }
    subst v.
    rewrite LeftPadded_empty, RightPadded_empty, NewConstant_ok by lia. auto.
  - right. right.
    rewrite LeftPadded_window, RightPadded_window by lia.
    rewrite !NewPaddedCircularWindow_ok by lia.
    rewrite wrap_small by (unfold is_int, min_int, max_int in *; lia).
    rewrite Z.mod_small by lia. rewrite Z.mod_0_l by lia.
    split; [lia|]. auto.
Qed.

Lemma rotate_0_id (l : list F) : rotate 0 l = l.
Proof.
  unfold rotate. destruct l as [|x l]; [reflexivity|].
  rewrite Nat.Div0.mod_0_l. cbn. now rewrite app_nil_r.
Qed.

Lemma rotate_app_length (l k : list F) : rotate (length l) (l ++ k) = k ++ l.
Proof.
  unfold rotate. rewrite length_app.
  destruct k as [|y k].
  - rewrite app_nil_r, Nat.add_0_r.
    destruct l as [|x l]; [reflexivity|].
    rewrite Nat.Div0.mod_same. cbn. now rewrite app_nil_r.
  - rewrite Nat.mod_small by (cbn; lia).
    now rewrite drop_app_length, take_app_length.
Qed.

Lemma index_Ok_lookup (l : list F) i x :
  0 <= i -> index l i = Ok x -> l !! Z.to_nat i = Some x.
Proof.
  intros Hi. unfold index.
  destruct (i <? 0) eqn:E; [apply Z.ltb_lt in E; lia|].
  destruct (l !! Z.to_nat i); [now intros [= ->]|discriminate].
Qed.

(** A well-formed vector materializes to a slice that holds [Get(i)] at
    every index. *)
Lemma materialize_Get s :
  well_formed s ->
  exists vec,
    IntoRegVecSaveAlloc field_Zero s = Ok vec /\
    len vec = Len s /\
    forall i, 0 <= i < Len s ->
      exists x, Get s i = Ok x /\ vec !! Z.to_nat i = Some x.
Proof.
  intros [Hlen Hwf]. destruct s as [c|w|r|r]; cbn [Len] in *.
  - exists (replicate (Z.to_nat (length_ c)) (val c)).
    rewrite (materialize_constant field_Zero) by lia.
    split; [reflexivity|]. split; [rewrite len_replicate; lia|].
    intros i Hi. exists (val c). destruct c as [x n]; cbn [val length_] in *.
    rewrite Get_constant by lia. split; [reflexivity|].
    apply lookup_replicate_2. lia.
  - exists (rotate (Z.to_nat ((totLen w - offset w) mod totLen w))
              (window w ++
               replicate (Z.to_nat (totLen w - len (window w))) (paddedVal w))).
    rewrite (materialize_window field_Zero) by lia.
    split; [reflexivity|]. split.
    + pose proof (len_nonneg (window w)).
      rewrite len_rotate, len_app, len_replicate by lia. lia.
    + intros i Hi.
      destruct (Get_window_rotate w i) as (x & Hx & Hidx); try lia.
      exists x. split; [exact Hx|]. apply index_Ok_lookup; [lia|exact Hidx].
  - exists r. split; [reflexivity|]. split; [reflexivity|].
    intros i Hi. destruct (index_in_range r i Hi) as [x Hx]. exists x.
    rewrite Get_regular by lia. split; [exact Hx|].
    apply index_Ok_lookup; [lia|exact Hx].
  - exists (rotate (Z.to_nat (rot_offset r mod len (v r))) (v r)).
    rewrite (materialize_rotated field_Zero) by lia.
    split; [reflexivity|]. split; [apply len_rotate|].
    intros i Hi.
    destruct (Get_rotated_rotate r i) as (x & Hx & Hidx); try lia.
    exists x. split; [exact Hx|]. apply index_Ok_lookup; [lia|exact Hidx].
Qed.

(** The filling loop of [IntoGnarkAssignment], started at index [k] with
    [m] entries to go. *)
Lemma IntoGnarkAssignment_loop_fills s (vec : list F) :
  (forall i, (i < length vec)%nat ->
     exists x, Get s (Z.of_nat i) = Ok x /\ vec !! i = Some x) ->
  forall (m k : nat) (res : list (option F)),
    length res = length vec -> (k + m <= length vec)%nat ->
    IntoGnarkAssignment_loop s res (seq k m)
    = Ok (take k res ++ (Some <$> take m (drop k vec)) ++ drop (k + m) res).
Proof.
  intros Hget. induction m as [|m IH]; intros k res Hres Hkm.
  - cbn [seq IntoGnarkAssignment_loop]. rewrite Nat.add_0_r, take_0.
    rewrite fmap_nil. cbn [app]. now rewrite take_drop.
  - cbn [seq IntoGnarkAssignment_loop].
    destruct (Hget k ltac:(lia)) as (x & Hx & Hv). rewrite Hx. cbn.
    rewrite IH by (rewrite ?length_insert; lia). f_equal.
    rewrite (take_S_r (<[k:=Some x]> res) k (Some x))
      by (apply list_lookup_insert_eq; lia).
    rewrite take_insert_ge by lia.
    rewrite drop_insert_lt by lia.
    rewrite (drop_S vec x k Hv). cbn [take fmap list_fmap].
    rewrite <- app_assoc. cbn [app].
    now replace (S k + m)%nat with (k + S m)%nat by lia.
Qed.

End PaddedFacts.

(** X13. For every slice that fits in targetLen > 0, the vector built by
    [LeftPadded] or [RightPadded] has [Density] len(v): the dense storage
    is never larger than the input, and is 0 for an empty input. *)
Theorem Padded_Density {F : Type} (v : list F) (padding : F) (targetLen : Z) :
  len v <= targetLen -> 0 < targetLen <= max_int ->
  exists l r,
    LeftPadded v padding targetLen = Ok l /\
    RightPadded v padding targetLen = Ok r /\
    Density (OfPackage l) = Ok (len v) /\
    Density (OfPackage r) = Ok (len v).
Proof.
  intros Hv Hn.
  destruct (Padded_cases v padding targetLen Hv Hn)
    as [(_ & -> & ->)|[(-> & -> & ->)|(_ & -> & ->)]];
    eexists; eexists; repeat split.
Qed.

Lemma Padded_Density_witness :
  exists l r : @SmartVector Z,
    LeftPadded [1; 2] 0 8 = Ok l /\ RightPadded [1; 2] 0 8 = Ok r /\
    Density (OfPackage l) = Ok 2 /\ Density (OfPackage r) = Ok 2.
Proof.
  apply (Padded_Density [1; 2] 0 8); [unfold len; cbn; lia|unfold max_int; lia].
Defined.

(** X14. [Window] undoes the padding: for a non-empty slice that fits in
    targetLen, the window of [LeftPadded] and of [RightPadded] is the
    slice itself; for an empty slice it is targetLen copies of the
    padding. *)
Theorem Window_Padded {F : Type} (field_Zero : F) (v : list F) (padding : F)
    (targetLen : Z) :
  len v <= targetLen -> 0 < targetLen <= max_int ->
  exists l r,
    LeftPadded v padding targetLen = Ok l /\
    RightPadded v padding targetLen = Ok r /\
    (0 < len v ->
       Window field_Zero (OfPackage l) = Ok v /\
       Window field_Zero (OfPackage r) = Ok v) /\
    (len v = 0 ->
       Window field_Zero (OfPackage l)
       = Ok (replicate (Z.to_nat targetLen) padding) /\
       Window field_Zero (OfPackage r)
       = Ok (replicate (Z.to_nat targetLen) padding)).
Proof.
  intros Hv Hn.
  destruct (Padded_cases v padding targetLen Hv Hn)
    as [(Hl & -> & ->)|[(-> & -> & ->)|(Hl & -> & ->)]];
    eexists; eexists; (split; [reflexivity|]); (split; [reflexivity|]).
  - split; [auto|]. intros H0. lia.
  - change (len []) with 0. split; [lia|]. intros _.
    cbn [Window]. rewrite materialize_constant by (cbn; lia). auto.
  - split; [auto|]. intros H0. lia.
Qed.

Lemma Window_Padded_witness :
  exists l r : @SmartVector Z,
    LeftPadded [1; 2] 0 8 = Ok l /\ RightPadded [1; 2] 0 8 = Ok r /\
    Window 0 (OfPackage l) = Ok [1; 2] /\ Window 0 (OfPackage r) = Ok [1; 2].
Proof.
  destruct (Window_Padded 0 [1; 2] 0 8) as (l & r & Hl & Hr & Hw & _);
    [unfold len; cbn; lia|unfold max_int; lia|].
  exists l, r. destruct Hw as [H1 H2]; [unfold len; cbn; lia|]. auto.
Defined.

(** X15. Materializing a padded vector gives the padded slice:
    [IntoRegVec] of [LeftPadded] is the padding followed by v, and
    [IntoRegVec] of [RightPadded] is what [utils.RightPad] returns. *)
Theorem IntoRegVec_Padded {F : Type} (field_Zero : F) (v : list F)
    (padding : F) (targetLen : Z) :
  len v <= targetLen -> 0 < targetLen <= max_int ->
  exists l r,
    LeftPadded v padding targetLen = Ok l /\
    RightPadded v padding targetLen = Ok r /\
    IntoRegVec field_Zero l
    = Ok (replicate (Z.to_nat (targetLen - len v)) padding ++ v) /\
    IntoRegVec field_Zero r = Utils.RightPad v targetLen padding.
Proof.
  intros Hv Hn. pose proof (len_nonneg v) as Hnn.
  unfold Utils.RightPad.
  destruct (targetLen <? 0) eqn:E; [apply Z.ltb_lt in E; lia|]. clear E.
  cbn [app]. rewrite RightPad_loop_pads. fold (len v).
  destruct (Padded_cases v padding targetLen Hv Hn)
    as [(Hl & -> & ->)|[(-> & -> & ->)|(Hl & -> & ->)]];
    eexists; eexists; (split; [reflexivity|]); (split; [reflexivity|]);
    rewrite !IntoRegVec_SaveAlloc by (cbn [Len length_ totLen]; lia).
  - subst targetLen. rewrite Z.sub_diag. cbn. now rewrite app_nil_r.
  - change (len []) with 0. rewrite Z.sub_0_r.
    rewrite materialize_constant by (cbn; lia). cbn. now rewrite app_nil_r.
  - rewrite !materialize_window by (cbn [totLen window]; lia).
    cbn [totLen offset window paddedVal].
    replace (targetLen - (targetLen - len v)) with (len v) by lia.
    rewrite Z.sub_0_r, Z.mod_same, Z.mod_small by lia.
    split; f_equal.
    + unfold len. rewrite Nat2Z.id. apply rotate_app_length.
    + apply rotate_0_id.
Qed.

Lemma IntoRegVec_Padded_witness :
  exists l r : @SmartVector Z,
    LeftPadded [1; 2] 9 4 = Ok l /\ RightPadded [1; 2] 9 4 = Ok r /\
    IntoRegVec 0 l = Ok [9; 9; 1; 2] /\
    IntoRegVec 0 r = Utils.RightPad [1; 2] 4 9.
Proof.
  apply (IntoRegVec_Padded 0 [1; 2] 9 4); [unfold len; cbn; lia|unfold max_int; lia].
Defined.

(** X16. For a well-formed vector, [IntoGnarkAssignment] returns the same
    sequence of values as [IntoRegVec], each boxed as a variable; no
    entry is left nil. *)
Theorem IntoGnarkAssignment_IntoRegVec {F : Type} (field_Zero : F)
    (s : SmartVector) :
  well_formed s ->
  exists vec,
    IntoRegVec field_Zero s = Ok vec /\
    IntoGnarkAssignment s = Ok (Some <$> vec).
Proof.
  intros Hwf. destruct (materialize_Get field_Zero s Hwf) as (vec & Hm & Hl & Hg).
  destruct Hwf as [Hlen _]. exists vec.
  rewrite IntoRegVec_SaveAlloc by lia. split; [exact Hm|].
  unfold IntoGnarkAssignment.
  destruct (Len s <? 0) eqn:E; [apply Z.ltb_lt in E; lia|].
  rewrite length_replicate.
  assert (Hn : Z.to_nat (Len s) = length vec) by (unfold len in Hl; lia).
  rewrite Hn.
  rewrite (IntoGnarkAssignment_loop_fills s vec).
  - cbn [take app]. rewrite drop_0, firstn_all.
    rewrite drop_ge by (rewrite length_replicate; lia).
    now rewrite app_nil_r.
  - intros i Hi. destruct (Hg (Z.of_nat i)) as (x & Hx & Hv);
      [unfold len in Hl; lia|].
    exists x. rewrite Nat2Z.id in Hv. auto.
  - apply length_replicate.
  - lia.
Qed.

Lemma IntoGnarkAssignment_IntoRegVec_witness :
  exists vec : list Z,
    IntoRegVec 0 (SvRotated (mkRotated [1; 2; 3] 1)) = Ok vec /\
    IntoGnarkAssignment (SvRotated (mkRotated [1; 2; 3] 1)) = Ok (Some <$> vec).
Proof.
  apply (IntoGnarkAssignment_IntoRegVec 0).
  split; [cbn; unfold len, max_int; cbn; lia|exact I].
Defined.

(** * Further properties of the [zkevm] entry point *)

(** X17. For limits that are [int]s (and whose ecrecover + transaction
    count does not overflow), the settings of [FullZkEvm] are built
    without panic and give every precompile enough room: instances times
    inputs per instance covers the configured number of calls, for ECDSA,
    ECADD, ECMUL and the G2 membership checks. A nil limits pointer
    panics. *)
Theorem fullSettings_capacity (t : TracesLimits) :
  is_int (PrecompileEcrecoverEffectiveCalls t + BlockTransactions t) ->
  is_int (PrecompileEcaddEffectiveCalls t) ->
  is_int (PrecompileEcmulEffectiveCalls t) ->
  is_int (PrecompileEcpairingG2MembershipCalls t) ->
  (exists s,
     fullSettings (Some t) = Ok s /\
     PrecompileEcrecoverEffectiveCalls t + BlockTransactions t
       <= NbInputInstance (Ecdsa s) * ecdsa_NbCircuitInstances (Ecdsa s) /\
     PrecompileEcaddEffectiveCalls t
       <= NbInputInstances (Ecadd s) * NbCircuitInstances (Ecadd s) /\
     PrecompileEcmulEffectiveCalls t
       <= NbInputInstances (Ecmul s) * NbCircuitInstances (Ecmul s) /\
     PrecompileEcpairingG2MembershipCalls t
       <= NbG2MembershipInputInstances (Ecpair s)
          * NbG2MembershipCircuits (Ecpair s) /\
     CompilationSuite s = fullCompilationSuite) /\
  fullSettings None = Panic.
Proof.
  intros H1 H2 H3 H4. split; [|reflexivity].
  destruct (DivCeil_bounds
              (PrecompileEcrecoverEffectiveCalls t + BlockTransactions t) 4)
    as (q1 & E1 & B1); [exact H1|unfold max_int; lia|].
  destruct (DivCeil_bounds (PrecompileEcaddEffectiveCalls t) 28)
    as (q2 & E2 & B2); [exact H2|unfold max_int; lia|].
  destruct (DivCeil_bounds (PrecompileEcmulEffectiveCalls t) 6)
    as (q3 & E3 & B3); [exact H3|unfold max_int; lia|].
  destruct (DivCeil_bounds (PrecompileEcpairingG2MembershipCalls t) 6)
    as (q4 & E4 & B4); [exact H4|unfold max_int; lia|].
  unfold fullSettings. cbn [deref mbind result_bind].
  rewrite (wrap_small _ H1). rewrite E1. cbn [mbind result_bind].
  rewrite E2. cbn [mbind result_bind].
  rewrite E3. cbn [mbind result_bind].
  rewrite E4. cbn [mbind result_bind].
  eexists. split; [reflexivity|]. cbn. repeat split; lia.
Qed.

Lemma fullSettings_capacity_witness :
  exists s,
    fullSettings (Some (sampleLimits 100)) = Ok s /\
    200 <= NbInputInstance (Ecdsa s) * ecdsa_NbCircuitInstances (Ecdsa s).
Proof.
  destruct (fullSettings_capacity (sampleLimits 100))
    as [(s & Hs & Hc & _) _];
    try (unfold is_int, min_int, max_int; cbn; lia).
  exists s. split; [exact Hs|exact Hc].
Defined.

Section Poisoned.

Variable ZkEvm : Type.
Variable NewZkEVM : Settings -> result ZkEvm.

Lemma FullZkEvm_first_panic tl (g1 : Globals ZkEvm) :
  FullZkEvm NewZkEVM tl startup = (Panic, g1) ->
  onceFullZkEvm g1 = true /\ fullZkEvm g1 = None /\
  allocated g1 = [] /\ compilations g1 = 1%nat /\
  (fullSettings tl ≫= NewZkEVM) = Panic.
Proof.
  unfold FullZkEvm, once_Do, compileBody. cbn.
  destruct (fullSettings tl ≫= NewZkEVM) as [z|]; cbn; [discriminate|].
  intros [= <-]. cbn. auto.
Qed.

(** After any calls from startup: nothing, one object, or a failed
    compilation. *)
Lemma afterCalls_shape (tls : list (option TracesLimits)) :
  let g := afterCalls NewZkEVM tls startup in
  (tls = [] /\ g = startup) \/
  (onceFullZkEvm g = true /\ compilations g = 1%nat /\
   ((exists z, allocated g = [z] /\ fullZkEvm g = Some 0%nat) \/
    (allocated g = [] /\ fullZkEvm g = None))).
Proof.
  destruct tls as [|tl rest]; [left; auto|]. right.
  cbn [afterCalls].
  destruct (FullZkEvm NewZkEVM tl startup) as [r g1] eqn:E. cbn [snd].
  destruct r as [p|].
  - destruct (FullZkEvm_first ZkEvm NewZkEVM tl p g1 E)
      as (Hd & Hp & Hc & z & -> & Hz & _).
    rewrite (afterCalls_done ZkEvm NewZkEVM) by exact Hd.
    split; [exact Hd|]. split; [exact Hc|]. left. exists z. auto.
  - destruct (FullZkEvm_first_panic tl g1 E) as (Hd & Hp & Ha & Hc & _).
    rewrite (afterCalls_done ZkEvm NewZkEVM) by exact Hd.
    split; [exact Hd|]. split; [exact Hc|]. right. auto.
Qed.

End Poisoned.

(** X18. If the first call of [FullZkEvm] panics (nil limits, or a panic
    of the compilation), the guard is spent all the same: every later
    call, with any limits, returns the nil pointer without panicking and
    without compiling again, and no instance is ever allocated. *)
Theorem FullZkEvm_poisoned (ZkEvm : Type) (NewZkEVM : Settings -> result ZkEvm)
    (tl1 : option TracesLimits) (g1 : Globals ZkEvm)
    (tls : list (option TracesLimits)) (tl2 : option TracesLimits) :
  FullZkEvm NewZkEVM tl1 startup = (Panic, g1) ->
  FullZkEvm NewZkEVM tl2 (afterCalls NewZkEVM tls g1) = (Ok None, g1) /\
  allocated g1 = [] /\ compilations g1 = 1%nat /\
  (fullSettings tl1 ≫= NewZkEVM) = Panic.
Proof.
  intros H1.
  destruct (FullZkEvm_first_panic ZkEvm NewZkEVM tl1 g1 H1)
    as (Hd & Hp & Ha & Hc & Hcause).
  rewrite (afterCalls_done ZkEvm NewZkEVM) by exact Hd.
  rewrite (FullZkEvm_done ZkEvm NewZkEVM) by exact Hd. rewrite Hp. auto.
Qed.

Lemma FullZkEvm_poisoned_witness :
  let g1 := snd (FullZkEvm (ZkEvm:=Settings) Ok None startup) in
  FullZkEvm (ZkEvm:=Settings) Ok (Some (sampleLimits 7))
    (afterCalls (ZkEvm:=Settings) Ok [Some (sampleLimits 9)] g1)
  = (Ok None, g1).
Proof.
  intros g1.
  apply (FullZkEvm_poisoned Settings Ok None g1 [Some (sampleLimits 9)]
           (Some (sampleLimits 7))).
  reflexivity.
Defined.

(** X19. Whatever calls of [FullZkEvm] a process has made, at most one
    [ZkEvm] has been allocated, and the global pointer is either nil or
    points to that one object: the returned pointer never dangles. *)
Theorem FullZkEvm_pointer_valid (ZkEvm : Type)
    (NewZkEVM : Settings -> result ZkEvm)
    (tls : list (option TracesLimits)) (tl : option TracesLimits) :
  let g := afterCalls NewZkEVM tls startup in
  (length (allocated g) <= 1)%nat /\
  (forall p, fullZkEvm g = Some p -> is_Some (allocated g !! p)) /\
  (forall p g', FullZkEvm NewZkEVM tl g = (Ok (Some p), g') ->
     is_Some (allocated g' !! p) /\ (length (allocated g') <= 1)%nat).
Proof.
  intros g.
  assert (Hshape : forall tls',
            let g := afterCalls NewZkEVM tls' startup in
            (length (allocated g) <= 1)%nat /\
            (forall p, fullZkEvm g = Some p -> is_Some (allocated g !! p))).
  { intros tls'. cbn zeta.
    destruct (afterCalls_shape ZkEvm NewZkEVM tls')
      as [[_ ->]|(_ & _ & [(z & -> & ->)|[-> ->]])]; cbn.
    - split; [lia|]. discriminate.
    - split; [lia|]. intros p [= <-]. now exists z.
    - split; [lia|]. discriminate. }
  destruct (Hshape tls) as [H1 H2]. split; [exact H1|]. split; [exact H2|].
  intros p g' Hcall.
  assert (Hg' : g' = afterCalls NewZkEVM (tls ++ [tl]) startup).
  { clear - Hcall. subst g. revert Hcall.
    generalize (@startup ZkEvm) as g0. induction tls as [|t rest IH]; intros g0 Hcall.
    - cbn in *. now rewrite Hcall.
    - cbn [afterCalls app]. now apply IH. }
  assert (Hp : fullZkEvm g' = Some p).
  { clear - Hcall. unfold FullZkEvm in Hcall.
    destruct (once_Do _ (compileBody ZkEvm NewZkEVM tl) g) as [r g''].
    destruct r; [|discriminate]. injection Hcall as Hp Hg. now subst g''. }
  destruct (Hshape (tls ++ [tl])) as [H1' H2']. rewrite <- Hg' in *.
  split; [now apply H2'|exact H1'].
Qed.

(** * Further properties of [updateSetup] *)

(** X20. In every run of [updateSetup] the circuit is compiled first;
    with the force flag set the manifest is never consulted; assets are
    written only after [MakeSetup] ran in the same call, which then got
    the circuit's name and a non-nil flag map; and nil is returned only
    when the setup was skipped or the assets were written. *)
Theorem updateSetup_trace {Ccs Assets Any : Type} (fForce : bool)
    (env : Collaborators Ccs Assets Any) (circuit : string)
    (extraFlags : option (gmap string Any)) :
  let r := updateSetup fForce env circuit extraFlags in
  head (snd r) = Some Compiled /\
  (fForce = true -> consultedManifest (snd r) = false) /\
  (wroteAssets (snd r) = true -> ranSetup (snd r) = true) /\
  (forall c flags, In (RanMakeSetup c flags) (snd r) ->
     c = circuit /\ flags = flagsOf extraFlags) /\
  (fst r = None ->
     wroteAssets (snd r) = true \/
     (fForce = false /\ ranSetup (snd r) = false /\
      consultedManifest (snd r) = true)).
Proof.
  intros r. subst r. unfold updateSetup, flagsOf.
  set (flags0 := match extraFlags with Some flags => flags | None => ∅ end).
  assert (Hin : forall (done : list (Event Any)) c flags,
            (forall c' f', ~ In (RanMakeSetup c' f') done) ->
            In (RanMakeSetup c flags)
               (done ++ [RanMakeSetup circuit flags0]) ->
            c = circuit /\ flags = flags0).
  { intros done c flags Hno H. apply in_app_or in H as [H|[H|[]]].
    - now apply Hno in H.
    - now injection H as <- <-. }
  assert (Hin' : forall (done : list (Event Any)) c flags path,
            (forall c' f', ~ In (RanMakeSetup c' f') done) ->
            In (RanMakeSetup c flags)
               (done ++ [RanMakeSetup circuit flags0; WroteAssets path]) ->
            c = circuit /\ flags = flags0).
  { intros done c flags path Hno H. apply in_app_or in H as [H|[H|[H|[]]]].
    - now apply Hno in H.
    - now injection H as <- <-.
    - discriminate. }
  assert (Hno : forall (done : list (Event Any)),
            ranSetup done = false ->
            forall c' f', ~ In (RanMakeSetup c' f') done).
  { intros done Hd c' f' H. unfold ranSetup in Hd.
    assert (existsb (fun e : Event Any =>
                       match e with RanMakeSetup _ _ => true | _ => false end)
                    done = true) as Ht
      by (apply existsb_exists; exists (RanMakeSetup c' f'); auto).
    congruence. }
  destruct (builder_Compile env) as [ccs|e].
  2: { cbn. repeat split; intros; try discriminate;
       try (intuition discriminate);
       try (right; auto). }
  destruct fForce; cbn [negb].
  - destruct (circuits_MakeSetup env circuit ccs flags0); cbn [fst snd].
    + split; [reflexivity|]. split; [reflexivity|]. split; [reflexivity|].
      split; [|intros _; left; reflexivity].
      intros c flags H. eapply Hin'; [|exact H]. now apply Hno.
    + split; [reflexivity|]. split; [reflexivity|]. split; [discriminate|].
      split; [|discriminate].
      intros c flags H. eapply Hin; [|exact H]. now apply Hno.
  - destruct (circuits_ReadSetupManifest env _) as [m|e].
    + destruct (circuits_CircuitDigest env ccs) as [d|e].
      * destruct (String.eqb (Circuit (checksums m)) d).
        -- cbn. repeat split; intros; try discriminate;
           try (intuition discriminate);
           try (right; auto).
        -- destruct (circuits_MakeSetup env circuit ccs flags0);
             cbn [fst snd].
           ++ split; [reflexivity|]. split; [discriminate|].
              split; [reflexivity|].
              split; [|intros _; left; reflexivity].
              intros c flags H. eapply Hin'; [|exact H]. now apply Hno.
           ++ split; [reflexivity|]. split; [discriminate|].
              split; [discriminate|]. split; [|discriminate].
              intros c flags H. eapply Hin; [|exact H]. now apply Hno.
      * cbn. repeat split; intros; try discriminate;
        try (intuition discriminate);
        try (right; auto).
    + destruct (circuits_MakeSetup env circuit ccs flags0); cbn [fst snd].
      * split; [reflexivity|]. split; [discriminate|].
        split; [reflexivity|].
        split; [|intros _; left; reflexivity].
        intros c flags H. eapply Hin'; [|exact H]. now apply Hno.
      * split; [reflexivity|]. split; [discriminate|].
        split; [discriminate|]. split; [|discriminate].
        intros c flags H. eapply Hin; [|exact H]. now apply Hno.
Qed.

Lemma updateSetup_trace_witness :
  let env : Collaborators unit unit unit :=
    {| builder_Compile := Returned ();
       cfg_PathForSetup := fun c => c;
       filepath_Join := fun a b => String.append a b;
       config_ManifestFileName := "manifest.json";
       circuits_ReadSetupManifest :=
         fun _ => Returned {| checksums := {| Circuit := "0xabc" |} |};
       circuits_CircuitDigest := fun _ => Returned "0xabc";
       circuits_MakeSetup := fun _ _ _ => Returned ();
       setup_WriteTo := fun _ _ => None |} in
  consultedManifest (snd (updateSetup true env "execution" None)) = false.
Proof.
  intros env.
  destruct (updateSetup_trace true env "execution" None) as (_ & H & _).
  apply H. reflexivity.
Defined.

(** * Properties of the bridge log scan *)

Section BridgeFacts.

Variable rollingHashUpdateTopic0 : Bridge.Hash.
Variable utils_HexEncodeToString : list Byte.byte -> string.
Variable l2BridgeAddress : Bridge.Address.

Local Abbreviation matching :=
  (fun log => Bridge.IsRollingHashUpdated rollingHashUpdateTopic0 log
                l2BridgeAddress).
Local Abbreviation loop :=
  (Bridge.ExtractRollingHashUpdated_loop rollingHashUpdateTopic0
     utils_HexEncodeToString).

Lemma topic_in_range (topics : list Bridge.Hash) (i : nat) :
  (i < length topics)%nat ->
  Bridge.topic topics i = Ok (default [] (topics !! i)).
Proof.
  intros Hi. unfold Bridge.topic.
  destruct (topics !! i) as [h|] eqn:E; [reflexivity|].
  apply lookup_ge_None in E. lia.
Qed.

Lemma Extract_loop_ok logs :
  Forall (fun log => matching log = true ->
                     (3 <= length (Bridge.Topics log))%nat) logs ->
  forall res,
    loop res logs l2BridgeAddress
    = Ok (res ++ map (entryOf utils_HexEncodeToString)
                     (List.filter matching logs)).
Proof.
  induction 1 as [|log logs Hlog _ IH]; intros res; cbn.
  - now rewrite app_nil_r.
  - destruct (Bridge.IsRollingHashUpdated _ log _) eqn:E; cbn [negb].
    + specialize (Hlog eq_refl).
      rewrite !topic_in_range by lia. cbn.
      rewrite IH. now rewrite <- app_assoc.
    + apply IH.
Qed.

Lemma Extract_loop_panic logs :
  Exists (fun log => matching log = true /\
                     (length (Bridge.Topics log) < 3)%nat) logs ->
  forall res, loop res logs l2BridgeAddress = Panic.
Proof.
  induction logs as [|log logs IH]; intros Hex res;
    [now apply Exists_nil in Hex|].
  cbn. destruct (Bridge.IsRollingHashUpdated _ log _) eqn:E; cbn [negb].
  - unfold Bridge.topic.
    destruct (Bridge.Topics log !! 1%nat) as [h1|] eqn:E1; cbn; [|reflexivity].
    destruct (Bridge.Topics log !! 2%nat) as [h2|] eqn:E2; cbn; [|reflexivity].
    apply Exists_cons in Hex as [[_ Hlen]|Hex]; [|now apply IH].
    apply lookup_lt_Some in E2. lia.
  - apply Exists_cons in Hex as [[Hm _]|Hex]; [congruence|now apply IH].
Qed.

End BridgeFacts.

(** X21. [ExtractRollingHashUpdated] keeps, in order, one entry per log
    that carries the event's topic and comes from the bridge address,
    read off its second and third topics; logs from anywhere else are
    skipped. It panics exactly when such a log has fewer than three
    topics, which [IsRollingHashUpdated] does not rule out. *)
Theorem ExtractRollingHashUpdated_spec (rollingHashUpdateTopic0 : Bridge.Hash)
    (utils_HexEncodeToString : list Byte.byte -> string)
    (logs : list Bridge.Log) (l2BridgeAddress : Bridge.Address) :
  let matching log :=
    Bridge.IsRollingHashUpdated rollingHashUpdateTopic0 log l2BridgeAddress in
  let extract :=
    Bridge.ExtractRollingHashUpdated rollingHashUpdateTopic0
      utils_HexEncodeToString logs l2BridgeAddress in
  (Forall (fun log => matching log = true ->
                      (3 <= length (Bridge.Topics log))%nat) logs ->
     extract = Ok (map (entryOf utils_HexEncodeToString)
                       (List.filter matching logs))) /\
  (Exists (fun log => matching log = true /\
                      (length (Bridge.Topics log) < 3)%nat) logs ->
     extract = Panic) /\
  (forall log, matching log = true <->
     Bridge.Topics log !! 0%nat = Some rollingHashUpdateTopic0 /\
     Bridge.log_Address log = l2BridgeAddress).
Proof.
  cbn zeta. unfold Bridge.ExtractRollingHashUpdated. split; [|split].
  - intros H. now rewrite Extract_loop_ok.
  - intros H. now apply Extract_loop_panic.
  - intros log. unfold Bridge.IsRollingHashUpdated.
    destruct (Bridge.Topics log) as [|t ts]; cbn.
    + split; [discriminate|]. intros [H _]. discriminate.
    + destruct (bool_decide (Some t = Some rollingHashUpdateTopic0)) eqn:E1;
        cbn.
      * apply bool_decide_eq_true in E1.
        destruct (bool_decide (Bridge.log_Address log = l2BridgeAddress))
          eqn:E2; cbn.
        -- apply bool_decide_eq_true in E2. split; auto.
        -- apply bool_decide_eq_false in E2.
           split; [discriminate|]. intros [_ H]. contradiction.
      * apply bool_decide_eq_false in E1.
        split; [discriminate|]. intros [H _]. contradiction.
Qed.

Lemma ExtractRollingHashUpdated_spec_witness :
  let topic0 := [Byte.x01] in
  let bridge := [Byte.x02] in
  let short := {| Bridge.log_Address := bridge;
                  Bridge.Topics := [topic0; [Byte.x07]] |} in
  Bridge.ExtractRollingHashUpdated topic0 (fun _ => "") [short] bridge
  = Panic.
Proof.
  intros topic0 bridge short.
  destruct (ExtractRollingHashUpdated_spec topic0 (fun _ => "") [short] bridge)
    as (_ & H & _).
  apply H. apply Exists_cons. left. split; [reflexivity|cbn; lia].
Defined.

(** * Powers of two, composed *)

Lemma IsPowerOfTwo_pow2 k : 0 <= k <= 62 -> Utils.IsPowerOfTwo (2 ^ k) = true.
Proof.
  intros Hk. unfold Utils.IsPowerOfTwo.
  assert (Hpos : 0 < 2 ^ k) by (apply Z.pow_pos_nonneg; lia).
  assert (Hle : 2 ^ k <= 2 ^ 62) by (apply Z.pow_le_mono_r; lia).
  rewrite wrap_small by (unfold is_int, min_int, max_int; lia).
  apply andb_true_iff. split.
  - apply Z.eqb_eq. destruct (2 ^ k) as [|p|p] eqn:E; try lia.
    apply land_pred_pow2. exists k. split; [lia|now symmetry].
  - apply Z.gtb_gt. lia.
Qed.

(** X22. On 0 < n <= 2^62 the result of [NextPowerOfTwo] is accepted by
    [IsPowerOfTwo] and is a fixed point: rounding up twice is rounding up
    once. *)
Theorem NextPowerOfTwo_idempotent (n : Z) :
  0 < n <= 2 ^ 62 ->
  exists p,
    Utils.NextPowerOfTwo n = Ok p /\
    Utils.IsPowerOfTwo p = true /\
    Utils.NextPowerOfTwo p = Ok p.
Proof.
  intros Hn.
  destruct (NextPowerOfTwo_pos n Hn) as (k & Hk & E & Hle & Hlt).
  exists (2 ^ k). split; [exact E|]. split; [now apply IsPowerOfTwo_pow2|].
  assert (Hpos : 0 < 2 ^ k) by (apply Z.pow_pos_nonneg; lia).
  assert (Hmax : 2 ^ k <= 2 ^ 62) by (apply Z.pow_le_mono_r; lia).
  destruct (NextPowerOfTwo_pos (2 ^ k) ltac:(lia))
    as (j & Hj & E' & Hle' & Hlt').
  rewrite E'. f_equal. f_equal.
  assert (k <= j) by (apply (Z.pow_le_mono_r_iff 2); lia).
  destruct (Z.eq_dec j k) as [|Hne]; [assumption|].
  specialize (Hlt' ltac:(lia)).
  apply Z.pow_lt_mono_r_iff in Hlt'; lia.
Qed.

Lemma NextPowerOfTwo_idempotent_witness :
  exists p,
    Utils.NextPowerOfTwo 100 = Ok p /\
    Utils.IsPowerOfTwo p = true /\
    Utils.NextPowerOfTwo p = Ok p.
Proof. apply (NextPowerOfTwo_idempotent 100). lia. Defined.

(** ** More sample runs *)

Example Log2_runs :
  Utils.Log2Floor 1 = 0 /\ Utils.Log2Floor 10 = 3 /\
  Utils.Log2Floor 1024 = 10 /\ Utils.Log2Floor (-3) = 0 /\
  Utils.Log2Ceil 1 = 0 /\ Utils.Log2Ceil 10 = 4 /\
  Utils.Log2Ceil 1024 = 10 /\ Utils.Log2Ceil 0 = 1.
Proof. repeat split. Qed.

Example DivExact_runs :
  Utils.DivExact 12 4 = Ok 3 /\ Utils.DivExact 13 4 = Panic /\
  Utils.DivExact 0 0 = Panic /\ Utils.DivExact min_int (-1) = Ok min_int.
Proof. repeat split. Qed.

Example GCD_runs :
  Utils.GCD 10 12 18 = Some 6 /\ Utils.GCD 10 7 7 = Some 7 /\
  Utils.GCD 2 12 18 = None.
Proof. repeat split. Qed.

Example slices_run :
  Utils.Join [[1; 2]; []; [3]] = [1; 2; 3] /\
  Utils.RightPad [1; 2] 4 0 = Ok [1; 2; 0; 0] /\
  Utils.RightPad [1; 2] (-1) 0 = Panic /\
  Utils.RepeatSlice [1; 2] 2 = Ok [1; 2; 1; 2] /\
  Utils.RepeatSlice [1; 2] (-1) = Panic /\
  Utils.AllReturnEqual Z.abs [3; -3; 3]
    = Ok (3, @None (@Utils.Mismatch Z Z)) /\
  Utils.AllReturnEqual Z.abs [3; 4]
    = Ok (3, Some {| Utils.mismatch_first_arg := 3; Utils.mismatch_arg := 4;
                     Utils.mismatch_first := 3; Utils.mismatch_curr := 4 |}).
Proof. repeat split. Qed.
